(** * Parking lot core: spot allocation, session ledger and fee policy

    A shallow embedding of the TypeScript sources

    - [interfaces/allocator.ts], [dtos/vehicle.dto.ts], [dtos/session.dto.ts]
      (the data model),
    - [services/flatFeeCalculator.ts] and [services/feeCalculatorFactory.ts]
      (the fee policy),
    - [infra/inMemoryRepos.ts] (the spot registry and the session ledger),
    - [services/simpleAllocator.ts] and [services/parkingService.ts]
      (allocation and the check-in / check-out coordinator),

    followed by the properties the specification states about them.

    Modelling conventions.

    - A JavaScript [number] is an exact rational ([Q]); results that the
      source compares with [===] are compared with [==] here.  Instants
      ([Date.getTime()]) are whole milliseconds ([Z]).  The rounding of
      IEEE doubles is not modelled: the statements below relate an amount
      to the expression the source computes it by, or order two amounts,
      and none adds amounts the source computes separately.
    - Objects are references into a store.  The two repositories hold
      arrays of references, so a field assignment through one reference is
      seen through every other reference to the same object, as in the
      source.
    - [async]/[await] on already-resolved promises is sequential
      composition; a [throw] aborts the operation and keeps the store as it
      is at that point.
    - [new Date()] and [uuid()] are readings of the environment; each
      operation receives them as arguments.
    - No operation assigns a field of a vehicle, so a session holds its
      vehicle by value. *)

From Stdlib Require Import ZArith QArith Qround Qminmax Sorted Lia Lqa.
From stdpp Require Import base decidable option functions list strings.

Local Open Scope Z_scope.

(** ** Data model *)

(** [type VehicleType = 'MOTORCYCLE' | 'CAR' | 'BUS'] *)
Inductive VehicleType : Set := MOTORCYCLE | CAR | BUS.

#[global] Instance VehicleType_eq_dec : EqDecision VehicleType.
Proof. solve_decision. Defined.

(** [interface VehicleDto { plate: string; type: VehicleType }] *)
Record VehicleDto : Set := mkVehicle {
  plate : string;
  type : VehicleType
}.

(** The [status] field of a spot: ['AVAILABLE' | 'RESERVED' | 'OCCUPIED']. *)
Inductive SpotStatus : Set := AVAILABLE | RESERVED | OCCUPIED.

#[global] Instance SpotStatus_eq_dec : EqDecision SpotStatus.
Proof. solve_decision. Defined.

(** [interface ParkingSpot] *)
Module Spot.
Record t : Set := mk {
  id : string;
  size : VehicleType;
  code : string;
  status : SpotStatus;
  distanceRank : Q
}.

(** [spot.status = st] *)
Definition setStatus (st : SpotStatus) (s : t) : t :=
  mk (id s) (size s) (code s) st (distanceRank s).
End Spot.

(** [interface ParkingSession]; an absent, [undefined] or [null] optional
    field is [None]. *)
Module Session.
Record t : Set := mk {
  id : string;
  vehicle : VehicleDto;
  spotId : string;
  entryTime : Z;
  exitTime : option Z;
  amount : option Q
}.

(** [session.exitTime = d] *)
Definition setExitTime (d : Z) (s : t) : t :=
  mk (id s) (vehicle s) (spotId s) (entryTime s) (Some d) (amount s).

(** [session.amount = a] *)
Definition setAmount (a : Q) (s : t) : t :=
  mk (id s) (vehicle s) (spotId s) (entryTime s) (exitTime s) (Some a).
End Session.

(** ** Fee policy ([services/flatFeeCalculator.ts]) *)

(** The three private fields of [FlatPerHourCalculator]. *)
Record FlatPerHourCalculator : Set := mkCalculator {
  base : Q;
  perHour : Q;
  graceMinutes : Q
}.

(** [new FlatPerHourCalculator()] with the constructor's defaults. *)
Definition defaultCalculator : FlatPerHourCalculator :=
  mkCalculator 1 2 10.

(** [calculate(session)].  [now] is the value [new Date().getTime()] would
    have; it is read only when the session has no exit time. *)
Definition calculate (self : FlatPerHourCalculator) (now : Z)
    (session : Session.t) : Q :=
  let entry := Session.entryTime session in
  let exit := match Session.exitTime session with
              | Some d => d
              | None => now
              end in
  let minutes :=
    Qmax 0 (inject_Z (Qceiling (inject_Z (exit - entry) / 60000))
            - graceMinutes self) in
  let hours := Z.max 0 (Qceiling (minutes / 60)) in
  (base self + inject_Z hours * perHour self)%Q.

(** [FeeCalculatorFactory.for(type)].  The [default:] branch of the source's
    [switch] is not reachable for a value of type [VehicleType]. *)
Definition FeeCalculatorFactory_for (ty : VehicleType) : FlatPerHourCalculator :=
  match ty with
  | MOTORCYCLE => mkCalculator (1 # 2) 1 15
  | CAR => mkCalculator 1 2 10
  | BUS => mkCalculator 2 5 0
  end.

(** The fee formula in the words of the specification: base charge plus the
    ceiling of the billable minutes in hours, times the hourly charge. *)
Definition spec_elapsedMinutes (entryTime exitTime : Z) : Z :=
  Qceiling (inject_Z (exitTime - entryTime) / 60000).

Definition spec_billableMinutes (entryTime exitTime : Z)
    (rate : FlatPerHourCalculator) : Q :=
  Qmax 0 (inject_Z (spec_elapsedMinutes entryTime exitTime) - graceMinutes rate).

Definition spec_billableHours (entryTime exitTime : Z)
    (rate : FlatPerHourCalculator) : Z :=
  Qceiling (spec_billableMinutes entryTime exitTime rate / 60).

Definition spec_amount (entryTime exitTime : Z)
    (rate : FlatPerHourCalculator) : Q :=
  (base rate
   + inject_Z (spec_billableHours entryTime exitTime rate) * perHour rate)%Q.

(** The duration of a stay in minutes, as a rational. *)
Definition durationMinutes (entryTime exitTime : Z) : Q :=
  inject_Z (exitTime - entryTime) / 60000.

(** A session record with the given entry and exit instants. *)
Definition sessionAt (entryTime : Z) (exitTime : option Z) : Session.t :=
  Session.mk "t1" (mkVehicle "P" CAR) "s" entryTime exitTime None.

(** ** The object store and the operation monad *)

(** A reference to an object. *)
Definition ref : Set := nat.

(** The state the operations work on: the spot objects and the session
    objects by reference, the next unused session reference, and the two
    arrays [InMemorySpotRepo.spots] and [InMemorySessionRepo.sessions]. *)
Record World : Type := mkWorld {
  spotObj : ref -> Spot.t;
  spots : list ref;
  sessionObj : ref -> Session.t;
  sessionNext : ref;
  sessions : list ref
}.

Definition setSpotObj (h : ref -> Spot.t) (w : World) : World :=
  mkWorld h (spots w) (sessionObj w) (sessionNext w) (sessions w).

Definition setSpots (l : list ref) (w : World) : World :=
  mkWorld (spotObj w) l (sessionObj w) (sessionNext w) (sessions w).

Definition setSessionObj (h : ref -> Session.t) (w : World) : World :=
  mkWorld (spotObj w) (spots w) h (sessionNext w) (sessions w).

Definition setSessionNext (n : ref) (w : World) : World :=
  mkWorld (spotObj w) (spots w) (sessionObj w) n (sessions w).

Definition setSessions (l : list ref) (w : World) : World :=
  mkWorld (spotObj w) (spots w) (sessionObj w) (sessionNext w) l.

(** An operation either returns a value or throws an [Error] with a
    message; in both cases it leaves a store behind. *)
Definition M (A : Type) : Type := World -> (string + A) * World.

Definition ret {A : Type} (a : A) : M A := fun w => (inr a, w).

Definition bind {A B : Type} (m : M A) (k : A -> M B) : M B :=
  fun w =>
    match m w with
    | (inr a, w') => k a w'
    | (inl e, w') => (inl e, w')
    end.

(** [throw new Error(msg)] *)
Definition throw {A : Type} (msg : string) : M A := fun w => (inl msg, w).

Definition gets {A : Type} (f : World -> A) : M A := fun w => (inr (f w), w).

Definition modify (f : World -> World) : M unit := fun w => (inr tt, f w).

Declare Scope M_scope.
Delimit Scope M_scope with M.
Notation "'let*' x ':=' c1 'in' c2" := (bind c1 (fun x => c2))
  (at level 10, x name, c1 at level 100, c2 at level 200) : M_scope.
Notation "c1 ;; c2" := (bind c1 (fun _ => c2))
  (at level 100, c2 at level 200, right associativity) : M_scope.
Local Open Scope M_scope.

(** A field assignment through a reference to a spot or to a session. *)
Definition modifySpot (r : ref) (f : Spot.t -> Spot.t) : M unit :=
  modify (fun w => setSpotObj (<[r := f (spotObj w r)]> (spotObj w)) w).

Definition modifySession (r : ref) (f : Session.t -> Session.t) : M unit :=
  modify (fun w => setSessionObj (<[r := f (sessionObj w r)]> (sessionObj w)) w).

(** An object literal of type [ParkingSession]: a new object at an unused
    reference. *)
Definition newSession (s : Session.t) : M ref :=
  fun w =>
    let r := sessionNext w in
    (inr r, setSessionNext (S r) (setSessionObj (<[r := s]> (sessionObj w)) w)).

(** ** Array helpers *)

(** [Array.prototype.findIndex]: the index of the first element that
    satisfies the predicate, [-1] when there is none. *)
Definition findIndex {A : Type} (P : A -> Prop) `{forall x, Decision (P x)}
    (l : list A) : Z :=
  match list_find P l with
  | Some (i, _) => Z.of_nat i
  | None => -1
  end.

(** [Array.prototype.find]: the first element that satisfies the
    predicate, [undefined] ([None]) when there is none. *)
Definition Array_find {A : Type} (P : A -> Prop) `{forall x, Decision (P x)}
    (l : list A) : option A :=
  snd <$> list_find P l.

(** [Array.prototype.sort(cmp)].  ECMAScript requires the sort to be
    stable, so for a comparator that orders by a key the result is the one
    of a stable insertion sort: an element goes before the first element of
    the sorted rest that does not compare below it. *)
Fixpoint insertSorted {A : Type} (cmp : A -> A -> Q) (x : A) (l : list A)
    : list A :=
  match l with
  | [] => [x]
  | y :: l' =>
      if Qle_bool (cmp x y) 0 then x :: y :: l' else y :: insertSorted cmp x l'
  end.

Definition Array_sort {A : Type} (cmp : A -> A -> Q) (l : list A) : list A :=
  foldr (insertSorted cmp) [] l.

(** ** Spot registry ([InMemorySpotRepo]) *)

(** The candidate predicate of [listAvailableBySize]:
    [s.status === 'AVAILABLE' && (s.size === size)]. *)
Definition availableOfSize (w : World) (size : VehicleType) (s : ref) : Prop :=
  Spot.status (spotObj w s) = AVAILABLE /\ Spot.size (spotObj w s) = size.

#[global] Instance availableOfSize_dec w size s :
  Decision (availableOfSize w size s).
Proof. unfold availableOfSize. apply _. Defined.

Definition listAvailableBySize (size : VehicleType) : M (list ref) :=
  gets (fun w => filter (availableOfSize w size) (spots w)).

Definition findById (id : string) : M (option ref) :=
  gets (fun w => Array_find (fun s => Spot.id (spotObj w s) = id) (spots w)).

Definition update (spot : ref) : M unit :=
  let* idx := gets (fun w =>
           findIndex (fun s => Spot.id (spotObj w s) = Spot.id (spotObj w spot))
                     (spots w)) in
  if 0 <=? idx
  then modify (fun w => setSpots (<[Z.to_nat idx := spot]> (spots w)) w)
  else ret tt.

Definition add (spot : ref) : M unit :=
  modify (fun w => setSpots (spots w ++ [spot]) w).

(** The constructor [new InMemorySpotRepo(initial)] with
    [new InMemorySessionRepo()]: the array is copied, the objects are
    shared, and the ledger is empty. *)
Definition newRepos (spotObjs : ref -> Spot.t) (initial : list ref)
    (sessionObjs : ref -> Session.t) (next : ref) : World :=
  mkWorld spotObjs initial sessionObjs next [].

(** ** Session ledger ([InMemorySessionRepo]) *)

Definition create (s : ref) : M unit :=
  modify (fun w => setSessions (sessions w ++ [s]) w).

Definition findActiveByPlate (p : string) : M (option ref) :=
  gets (fun w =>
    Array_find (fun x => plate (Session.vehicle (sessionObj w x)) = p
                         /\ Session.exitTime (sessionObj w x) = None)
               (sessions w)).

Definition close (id : string) (exitTime : Z) (amount : Q) : M unit :=
  let* s := gets (fun w =>
         Array_find (fun x => Session.id (sessionObj w x) = id) (sessions w)) in
  match s with
  | Some s =>
      modifySession s (Session.setExitTime exitTime) ;;
      modifySession s (Session.setAmount amount)
  | None => ret tt
  end.

(** ** Allocator ([SimpleAllocator]) *)

(** The comparator [(a,b) => a.distanceRank - b.distanceRank]. *)
Definition byDistanceRank (w : World) (a b : ref) : Q :=
  Spot.distanceRank (spotObj w a) - Spot.distanceRank (spotObj w b).

(** [allocate(vehicle)].  After the emptiness test the sorted array has a
    first element; reading a field of [candidates[0]] on an empty array
    would throw a [TypeError]. *)
Definition allocate (now : Z) (uuid : string) (vehicle : VehicleDto) : M ref :=
  let* candidates := listAvailableBySize (type vehicle) in
  if decide (length candidates = 0%nat) then throw "NoSpace" else
  let* candidates := gets (fun w => Array_sort (byDistanceRank w) candidates) in
  match candidates with
  | [] => throw "TypeError"
  | chosen :: _ =>
      modifySpot chosen (Spot.setStatus OCCUPIED) ;;
      update chosen ;;
      let* chosenId := gets (fun w => Spot.id (spotObj w chosen)) in
      let* session := newSession (Session.mk uuid vehicle chosenId now None None) in
      create session ;;
      ret chosen
  end.

(** [release(spotId)] *)
Definition release (spotId : string) : M unit :=
  let* spot := findById spotId in
  match spot with
  | None => ret tt
  | Some spot =>
      modifySpot spot (Spot.setStatus AVAILABLE) ;;
      update spot
  end.

(** ** Coordinator ([ParkingService]) *)

(** [checkIn(vehicle)] returns [{ spotId: spot.id, code: spot.code }]. *)
Definition checkIn (now : Z) (uuid : string) (vehicle : VehicleDto)
    : M (string * string) :=
  let* spot := allocate now uuid vehicle in
  gets (fun w => (Spot.id (spotObj w spot), Spot.code (spotObj w spot))).

(** [checkOut(sessionId)] returns [{ amount }].  The session is looked up
    in the ledger's array by id alone.  The [session.exitTime] passed to
    [close] is read back from the object, which holds the instant assigned
    two statements earlier. *)
Definition checkOut (now : Z) (sessionId : string) : M Q :=
  let* session := gets (fun w =>
               Array_find (fun s => Session.id (sessionObj w s) = sessionId)
                          (sessions w)) in
  match session with
  | None => throw "NotFound"
  | Some session =>
      modifySession session (Session.setExitTime now) ;;
      let* s := gets (fun w => sessionObj w session) in
      let calculator := FeeCalculatorFactory_for (type (Session.vehicle s)) in
      let amount := calculate calculator now s in
      close sessionId (default now (Session.exitTime s)) amount ;;
      release (Session.spotId s) ;;
      ret amount
  end.

(** The operations a client of the coordinator can issue, with the
    environment readings each one makes. *)
Inductive Op : Type :=
  | CheckIn (now : Z) (uuid : string) (vehicle : VehicleDto)
  | CheckOut (now : Z) (sessionId : string).

(** The store an operation leaves behind, whether it returns or throws. *)
Definition step (op : Op) (w : World) : World :=
  match op with
  | CheckIn now uuid vehicle => snd (checkIn now uuid vehicle w)
  | CheckOut now sessionId => snd (checkOut now sessionId w)
  end.

Definition runOps (ops : list Op) (w : World) : World :=
  foldl (fun w op => step op w) w ops.

(** ** Initial stores *)

(** A start-up inventory given as a list of object literals: one object
    per literal, the array holding them in order, and an empty ledger. *)
Definition noSpot : Spot.t := Spot.mk "" CAR "" AVAILABLE 0.
Definition noSession : Session.t :=
  Session.mk "" (mkVehicle "" CAR) "" 0 None None.

Definition initialWorld (inventory : list Spot.t) : World :=
  newRepos (fun r => default noSpot (inventory !! r))
           (seq 0 (length inventory))
           (fun _ => noSession) 0%nat.

(** The inventory of the demo in [index.ts]. *)
Definition demoInventory : list Spot.t :=
  [ Spot.mk "s1" CAR "F1-A1" AVAILABLE 1;
    Spot.mk "s2" CAR "F1-A2" AVAILABLE 2 ].

(** ** Concrete configurations used in the examples below *)

(** A rate whose grace period is negative, and one whose grace period is
    not a whole number of minutes. *)
Definition negativeGraceRate : FlatPerHourCalculator := mkCalculator 1 2 (-5).
Definition fractionalGraceRate : FlatPerHourCalculator :=
  mkCalculator 1 2 (21 # 2).

(** A ledger that holds one open session with id ["a"], and a second
    session object with the same id that is not in the ledger yet. *)
Definition twinSession (plate : string) : Session.t :=
  Session.mk "a" (mkVehicle plate CAR) "s1" 0 None None.

Definition twinLedger : World :=
  mkWorld (fun _ => noSpot) []
          (fun r => if decide (r = 0%nat) then twinSession "P"
                    else twinSession "Q")
          2%nat [0%nat].

(** ** Vocabulary of the statements *)

(** The first session of the ledger with the given id, and the first spot
    of the registry with the given id: what the [find] calls of the source
    return. *)
Definition sessionWithId (w : World) (id : string) : option ref :=
  Array_find (fun x => Session.id (sessionObj w x) = id) (sessions w).

Definition spotWithId (w : World) (id : string) : option ref :=
  Array_find (fun s => Spot.id (spotObj w s) = id) (spots w).

(** A session is open while it has no exit time. *)
Definition isOpen (w : World) (s : ref) : Prop :=
  Session.exitTime (sessionObj w s) = None.

(** The distance rank of the spot behind a reference. *)
Definition rank (w : World) (r : ref) : Q := Spot.distanceRank (spotObj w r).

(** [chosen] is the nearest candidate of the registry for [size]: it is an
    available spot of that size, every candidate that comes before it in
    the array has a strictly greater rank, and no candidate after it has a
    smaller one. *)
Definition nearestCandidate (w : World) (size : VehicleType) (chosen : ref)
    : Prop :=
  availableOfSize w size chosen /\
  exists pre post,
    spots w = pre ++ chosen :: post
    /\ (forall c, c ∈ pre -> availableOfSize w size c ->
          (rank w chosen < rank w c)%Q)
    /\ (forall c, c ∈ post -> availableOfSize w size c ->
          (rank w chosen <= rank w c)%Q).

(** The ids of the spots in the registry, in array order. *)
Definition spotIds (w : World) : list string :=
  (fun r => Spot.id (spotObj w r)) <$> spots w.

(** The store [allocate] leaves behind when it picks [chosen] and the
    first spot of the registry with the id of [chosen] is at index [i]. *)
Definition allocatedWorld (now : Z) (uuid : string) (vehicle : VehicleDto)
    (chosen : ref) (i : nat) (w : World) : World :=
  mkWorld (<[chosen := Spot.setStatus OCCUPIED (spotObj w chosen)]> (spotObj w))
          (<[i := chosen]> (spots w))
          (<[sessionNext w :=
               Session.mk uuid vehicle (Spot.id (spotObj w chosen)) now None None]>
             (sessionObj w))
          (S (sessionNext w))
          (sessions w ++ [sessionNext w]).

(** The amount [checkOut] computes at instant [now] for a session: the
    fee of the session's vehicle type up to [now]. *)
Definition feeAt (now : Z) (s : Session.t) : Q :=
  calculate (FeeCalculatorFactory_for (type (Session.vehicle s))) now
            (Session.setExitTime now s).

#[global] Instance isOpen_dec w s : Decision (isOpen w s).
Proof. unfold isOpen. apply _. Defined.

(** The open sessions of the ledger that reference a spot id. *)
Definition openSessionsOn (w : World) (spotId : string) : list ref :=
  filter (fun s => isOpen w s /\ Session.spotId (sessionObj w s) = spotId)
         (sessions w).

(** The invariant of the data model: a spot of the registry is [OCCUPIED]
    if and only if exactly one open session references it by [spotId]. *)
Definition spotInvariant (w : World) : Prop :=
  forall r, r ∈ spots w ->
    (Spot.status (spotObj w r) = OCCUPIED
     <-> length (openSessionsOn w (Spot.id (spotObj w r))) = 1%nat).

(** A registry with a single car spot, and a scenario on it: a car checks
    in and out, a second car takes the spot, and the first session is
    checked out once more. *)
Definition oneSpot : list Spot.t := [Spot.mk "s1" CAR "F1-A1" AVAILABLE 1].

Definition doubleCheckOut : list Op :=
  [ CheckIn 0 "u1" (mkVehicle "A" CAR);
    CheckOut 1800000 "u1";
    CheckIn 3600000 "u2" (mkVehicle "B" CAR);
    CheckOut 5400000 "u1" ].

(** An operation checks out open sessions only when it is a check-in, or a
    check-out whose session, if the ledger has one with that id, is still
    open.  A sequence of operations is disciplined when each operation does
    so in the store it runs in. *)
Definition checksOutOpen (op : Op) (w : World) : Prop :=
  match op with
  | CheckIn _ _ _ => True
  | CheckOut _ sessionId =>
      forall r, sessionWithId w sessionId = Some r -> isOpen w r
  end.

Fixpoint disciplined (ops : list Op) (w : World) : Prop :=
  match ops with
  | [] => True
  | op :: ops => checksOutOpen op w /\ disciplined ops (step op w)
  end.

(** The inductive strengthening of [spotInvariant]: spot ids are pairwise
    distinct, the ledger holds each session object once and only objects
    created so far, and every spot is either [AVAILABLE] with no open
    session or [OCCUPIED] with exactly one. *)
Definition consistent (w : World) : Prop :=
  NoDup (spotIds w)
  /\ NoDup (sessions w)
  /\ (forall s, s ∈ sessions w -> (s < sessionNext w)%nat)
  /\ forall r, r ∈ spots w ->
       (Spot.status (spotObj w r) = AVAILABLE
        /\ length (openSessionsOn w (Spot.id (spotObj w r))) = 0%nat)
       \/ (Spot.status (spotObj w r) = OCCUPIED
           /\ length (openSessionsOn w (Spot.id (spotObj w r))) = 1%nat).

(** A registry whose two spots carry the same id: a bus spot first, a car
    spot second. *)
Definition repeatedIdInventory : list Spot.t :=
  [ Spot.mk "x" BUS "B1" AVAILABLE 1;
    Spot.mk "x" CAR "C1" AVAILABLE 1 ].

(** A stay moved in time by [k] milliseconds. *)
Definition shiftSession (k : Z) (s : Session.t) : Session.t :=
  Session.mk (Session.id s) (Session.vehicle s) (Session.spotId s)
             (Session.entryTime s + k)
             ((fun d => d + k) <$> Session.exitTime s)
             (Session.amount s).

(** The ledger holds only session objects that have been created. *)
Definition ledgerWellFormed (w : World) : Prop :=
  forall s, s ∈ sessions w -> (s < sessionNext w)%nat.

(** Two session records agree on what is fixed at check-in, and two spot
    records agree on everything but the status. *)
Definition sameEntry (a b : Session.t) : Prop :=
  Session.id a = Session.id b
  /\ Session.vehicle a = Session.vehicle b
  /\ Session.spotId a = Session.spotId b
  /\ Session.entryTime a = Session.entryTime b.

Definition sameSpot (a b : Spot.t) : Prop :=
  Spot.id a = Spot.id b
  /\ Spot.size a = Spot.size b
  /\ Spot.code a = Spot.code b
  /\ Spot.distanceRank a = Spot.distanceRank b.

(** * Properties *)

(** ** Fee policy *)

Section FeeFacts.

Local Open Scope Q_scope.

Lemma Qceiling_nonneg (x : Q) : 0 <= x -> (0 <= Qceiling x)%Z.
Proof.
  intros Hx. change 0%Z with (Qceiling 0). now apply Qceiling_resp_le.
Qed.

Lemma Qceiling_nonpos (x : Q) : x <= 0 -> (Qceiling x <= 0)%Z.
Proof.
  intros Hx. change 0%Z with (Qceiling 0). now apply Qceiling_resp_le.
Qed.

(** The ceiling is the least integer above: [n - 1 < x <= n]. *)
Lemma Qceiling_unique (x : Q) (n : Z) :
  inject_Z n - 1 < x -> x <= inject_Z n -> Qceiling x = n.
Proof.
  intros Hlo Hhi.
  assert (H1 : (Qceiling x <= n)%Z).
  { rewrite <- (Qceiling_Z n). now apply Qceiling_resp_le. }
  assert (H2 : inject_Z n - 1 < inject_Z (Qceiling x)).
  { eapply Qlt_le_trans; [exact Hlo | apply Qle_ceiling]. }
  assert (H3 : (n - 1 < Qceiling x)%Z).
  { rewrite Zlt_Qlt. unfold Z.sub. rewrite inject_Z_plus. exact H2. }
  lia.
Qed.

Lemma Qmax_0_nonneg (x : Q) : 0 <= Qmax 0 x.
Proof. apply Q.le_max_l. Qed.

Lemma Qmax_0_nonpos (x : Q) : x <= 0 -> Qmax 0 x == 0.
Proof. intros Hx. now apply Q.max_l. Qed.

Lemma Qmax_0_pos (x : Q) : 0 <= x -> Qmax 0 x == x.
Proof. intros Hx. now apply Q.max_r. Qed.

Lemma Qceiling_div60_0 (x : Q) : x == 0 -> Qceiling (x / 60) = 0%Z.
Proof. intros Hx. rewrite Hx. reflexivity. Qed.

Lemma spec_elapsedMinutes_mono (entry t1 t2 : Z) :
  (t1 <= t2)%Z -> (spec_elapsedMinutes entry t1 <= spec_elapsedMinutes entry t2)%Z.
Proof.
  intros Ht. unfold spec_elapsedMinutes. apply Qceiling_resp_le.
  apply Qmult_le_compat_r; [| discriminate].
  rewrite <- Zle_Qle. lia.
Qed.

Lemma spec_elapsedMinutes_nonpos (entry exit : Z) :
  (exit <= entry)%Z -> (spec_elapsedMinutes entry exit <= 0)%Z.
Proof.
  intros Ht. apply Qceiling_nonpos. apply Qle_shift_div_r; [reflexivity |].
  change (0 * 60000) with (inject_Z 0). rewrite <- Zle_Qle. lia.
Qed.

Lemma spec_billableHours_nonneg self entry exit : (0 <= spec_billableHours entry exit self)%Z.
Proof.
  apply Qceiling_nonneg. apply Qle_shift_div_l; [reflexivity |].
  apply Qmax_0_nonneg.
Qed.

Lemma calculate_closed self now session exit :
  calculate self now (Session.setExitTime exit session)
  = spec_amount (Session.entryTime session) exit self.
Proof.
  unfold calculate. cbn [Session.setExitTime Session.exitTime Session.entryTime].
  fold (spec_elapsedMinutes (Session.entryTime session) exit).
  fold (spec_billableMinutes (Session.entryTime session) exit self).
  fold (spec_billableHours (Session.entryTime session) exit self).
  rewrite Z.max_r by apply spec_billableHours_nonneg. reflexivity.
Qed.

Lemma spec_billableHours_mono self entry t1 t2 :
  (t1 <= t2)%Z -> (spec_billableHours entry t1 self <= spec_billableHours entry t2 self)%Z.
Proof.
  intros Ht. apply Qceiling_resp_le.
  apply Qmult_le_compat_r; [| discriminate].
  apply Q.max_le_compat_l.
  apply Qplus_le_compat; [| apply Qle_refl].
  rewrite <- Zle_Qle. now apply spec_elapsedMinutes_mono.
Qed.

Lemma spec_billableHours_0 self entry exit :
  inject_Z (spec_elapsedMinutes entry exit) <= graceMinutes self ->
  spec_billableHours entry exit self = 0%Z.
Proof.
  intros H. apply Qceiling_div60_0. apply Qmax_0_nonpos. lra.
Qed.

Lemma spec_billableHours_1 self entry exit :
  graceMinutes self < inject_Z (spec_elapsedMinutes entry exit) ->
  inject_Z (spec_elapsedMinutes entry exit) <= graceMinutes self + 60 ->
  spec_billableHours entry exit self = 1%Z.
Proof.
  intros Hlo Hhi. unfold spec_billableHours, spec_billableMinutes.
  rewrite Qmax_0_pos by lra.
  apply Qceiling_unique.
  - apply Qlt_shift_div_l; [reflexivity |]. change (inject_Z 1) with 1. lra.
  - apply Qle_shift_div_r; [reflexivity |]. change (inject_Z 1) with 1. lra.
Qed.

End FeeFacts.

Local Open Scope Q_scope.

Example test_fee_with_grace :
  calculate (mkCalculator 1 2 10) 1800000 (sessionAt 0 None) == 3.
Proof. vm_compute. reflexivity. Qed.

(** C3, as stated, fails: with a negative grace period a stay of zero
    elapsed time is billed one hour, not the base charge alone. *)
Lemma calculate_zero_elapsed_negative_grace :
  (0 <= 0)%Z /\
  ~ calculate negativeGraceRate 0 (Session.setExitTime 0 (sessionAt 0 None))
    == base negativeGraceRate.
Proof. split; [lia |]. vm_compute. discriminate. Qed.

(** C3 (amended): for every entry time, exit time and rate, [calculate]
    returns [base + ceil(max(0, ceil(elapsed minutes) - graceMinutes) / 60)
    * perHour]; when [graceMinutes] is not negative, zero or negative
    elapsed time yields exactly [base]. *)
Theorem calculate_formula (self : FlatPerHourCalculator) (now : Z)
    (session : Session.t) (exit : Z) :
  calculate self now (Session.setExitTime exit session)
  = spec_amount (Session.entryTime session) exit self
  /\ (0 <= graceMinutes self -> (exit <= Session.entryTime session)%Z ->
      calculate self now (Session.setExitTime exit session) == base self).
Proof.
  split; [apply calculate_closed |].
  intros Hg Ht. rewrite calculate_closed. unfold spec_amount.
  rewrite spec_billableHours_0; [ring |].
  apply Qle_trans with 0; [| exact Hg].
  change 0 with (inject_Z 0). rewrite <- Zle_Qle.
  now apply spec_elapsedMinutes_nonpos.
Qed.

Lemma calculate_formula_witness :
  calculate defaultCalculator 7 (Session.setExitTime 5 (sessionAt 9 None))
  == base defaultCalculator.
Proof.
  apply (proj2 (calculate_formula defaultCalculator 7 (sessionAt 9 None) 5)).
  - vm_compute. discriminate.
  - cbn. lia.
Defined.

(** C8, as stated, fails: with a grace period of 10.5 minutes a stay of
    10.2 minutes lies within the grace period and is billed one hour. *)
Lemma calculate_within_fractional_grace :
  0 < durationMinutes 0 612000 /\
  durationMinutes 0 612000 <= graceMinutes fractionalGraceRate /\
  ~ calculate fractionalGraceRate 0 (Session.setExitTime 612000 (sessionAt 0 None))
    == base fractionalGraceRate.
Proof. vm_compute. repeat split; discriminate. Qed.

(** C8 (amended): for every rate whose [graceMinutes] is a whole number and
    every duration [d] in minutes, [0 < d <= graceMinutes] gives exactly
    [base], and [graceMinutes < d <= graceMinutes + 60] gives exactly
    [base + perHour]. *)
Theorem calculate_grace_window (self : FlatPerHourCalculator) (g : Z) (now : Z)
    (session : Session.t) (exit : Z) :
  graceMinutes self == inject_Z g ->
  let d := durationMinutes (Session.entryTime session) exit in
  (0 < d -> d <= graceMinutes self ->
   calculate self now (Session.setExitTime exit session) == base self)
  /\ (graceMinutes self < d -> d <= graceMinutes self + 60 ->
      calculate self now (Session.setExitTime exit session)
      == base self + perHour self).
Proof.
  intros Hg d. rewrite calculate_closed. unfold spec_amount.
  set (c := spec_elapsedMinutes (Session.entryTime session) exit).
  assert (Hc : c = Qceiling d) by reflexivity.
  split.
  - intros _ Hd. rewrite spec_billableHours_0; [ring |]. fold c.
    rewrite Hg, <- Zle_Qle, Hc, <- (Qceiling_Z g).
    apply Qceiling_resp_le. now rewrite <- Hg.
  - intros Hlo Hhi. rewrite spec_billableHours_1; [ring | |]; fold c.
    + eapply Qlt_le_trans; [exact Hlo |]. rewrite Hc. apply Qle_ceiling.
    + rewrite Hg. change 60 with (inject_Z 60).
      rewrite <- inject_Z_plus, <- Zle_Qle, Hc, <- (Qceiling_Z (g + 60)).
      apply Qceiling_resp_le. rewrite inject_Z_plus, <- Hg. exact Hhi.
Qed.

Lemma calculate_grace_window_witness :
  calculate defaultCalculator 0 (Session.setExitTime 600000 (sessionAt 0 None))
  == base defaultCalculator
  /\ calculate defaultCalculator 0 (Session.setExitTime 600001 (sessionAt 0 None))
     == base defaultCalculator + perHour defaultCalculator.
Proof.
  split.
  - apply (proj1 (calculate_grace_window defaultCalculator 10 0
                    (sessionAt 0 None) 600000 ltac:(reflexivity)));
      vm_compute; [reflexivity | discriminate].
  - apply (proj2 (calculate_grace_window defaultCalculator 10 0
                    (sessionAt 0 None) 600001 ltac:(reflexivity)));
      vm_compute; [reflexivity | discriminate].
Defined.

(** C10: for a fixed entry time and a rate with non-negative [perHour], the
    fee is monotone non-decreasing in the exit time. *)
Theorem calculate_monotone (self : FlatPerHourCalculator) (now : Z)
    (session : Session.t) (t1 t2 : Z) :
  0 <= perHour self -> (t1 <= t2)%Z ->
  calculate self now (Session.setExitTime t1 session)
  <= calculate self now (Session.setExitTime t2 session).
Proof.
  intros Hp Ht. rewrite !calculate_closed. unfold spec_amount.
  apply Qplus_le_compat; [apply Qle_refl |].
  apply Qmult_le_compat_r; [| exact Hp].
  rewrite <- Zle_Qle. now apply spec_billableHours_mono.
Qed.

Lemma calculate_monotone_witness :
  calculate defaultCalculator 0 (Session.setExitTime 1800000 (sessionAt 0 None))
  <= calculate defaultCalculator 0 (Session.setExitTime 18000000 (sessionAt 0 None)).
Proof.
  apply (calculate_monotone defaultCalculator 0 (sessionAt 0 None)
           1800000 18000000).
  - vm_compute. discriminate.
  - lia.
Defined.

Local Close Scope Q_scope.

(** ** Session ledger *)

(** C5, as stated, fails: [create] on a session whose id is already in the
    ledger returns normally, and the ledger then holds both sessions. *)
Lemma create_same_id_twice :
  sessionWithId twinLedger "a" = Some 0%nat /\
  Session.id (sessionObj twinLedger 1%nat) = "a" /\
  fst (create 1%nat twinLedger) = inr tt /\
  sessions (snd (create 1%nat twinLedger)) = [0%nat; 1%nat].
Proof. repeat split. Qed.

(** C5 (amended): [create(session)] never fails: it appends the session at
    the end of the ledger whether or not a session with the same id is
    already present, keeps every earlier entry in place, and changes
    neither a session object nor the spot registry. *)
Theorem create_appends (s : ref) (w : World) :
  let w' := snd (create s w) in
  fst (create s w) = inr tt
  /\ sessions w' = sessions w ++ [s]
  /\ (forall i r, sessions w !! i = Some r -> sessions w' !! i = Some r)
  /\ sessions w' !! length (sessions w) = Some s
  /\ sessionObj w' = sessionObj w
  /\ spots w' = spots w /\ spotObj w' = spotObj w.
Proof.
  cbn. repeat split.
  - intros i r Hi. now apply lookup_app_l_Some.
  - rewrite lookup_app_r by lia. now rewrite Nat.sub_diag.
Qed.

Lemma create_appends_witness :
  sessions (snd (create 1%nat twinLedger)) = sessions twinLedger ++ [1%nat]
  /\ Session.id (sessionObj (snd (create 1%nat twinLedger)) 0%nat)
     = Session.id (sessionObj (snd (create 1%nat twinLedger)) 1%nat).
Proof.
  destruct (create_appends 1%nat twinLedger) as (_ & Happ & _ & _ & Hobj & _).
  split; [exact Happ |]. now rewrite Hobj.
Defined.

(** What [close] leaves behind when a session with the id exists. *)
Lemma close_found (id : string) (exitTime : Z) (amount : Q) (w : World) (r : ref) :
  sessionWithId w id = Some r ->
  close id exitTime amount w
  = (inr tt,
     setSessionObj
       (<[r := Session.setAmount amount
                 (Session.setExitTime exitTime (sessionObj w r))]>
          (<[r := Session.setExitTime exitTime (sessionObj w r)]> (sessionObj w)))
       w).
Proof.
  unfold sessionWithId. intros Hf.
  unfold close, bind, gets, modifySession, modify. rewrite Hf. cbn.
  now rewrite fn_lookup_insert.
Qed.

Lemma close_not_found (id : string) (exitTime : Z) (amount : Q) (w : World) :
  sessionWithId w id = None -> close id exitTime amount w = (inr tt, w).
Proof.
  unfold sessionWithId. intros Hf.
  unfold close, bind, gets. now rewrite Hf.
Qed.

(** C4, as stated, fails: [close] for an id that no session of the ledger
    has returns normally instead of failing. *)
Lemma close_unknown_id_returns :
  sessionWithId (initialWorld []) "missing" = None /\
  fst (close "missing" 5 1 (initialWorld [])) = inr tt.
Proof. split; reflexivity. Qed.

(** C4 (amended): when the first session of the ledger with the given id is
    open, [close(id, exitTime, amount)] sets [exitTime] and [amount] on
    it and changes nothing else; when no session has that id, it returns
    normally and leaves the store as it is. *)
Theorem close_sets_exit_and_amount (id : string) (exitTime : Z) (amount : Q)
    (w : World) :
  (forall r, sessionWithId w id = Some r -> isOpen w r ->
     let w' := snd (close id exitTime amount w) in
     fst (close id exitTime amount w) = inr tt
     /\ Session.exitTime (sessionObj w' r) = Some exitTime
     /\ Session.amount (sessionObj w' r) = Some amount
     /\ Session.id (sessionObj w' r) = id
     /\ Session.vehicle (sessionObj w' r) = Session.vehicle (sessionObj w r)
     /\ Session.spotId (sessionObj w' r) = Session.spotId (sessionObj w r)
     /\ Session.entryTime (sessionObj w' r) = Session.entryTime (sessionObj w r)
     /\ (forall r', r' <> r -> sessionObj w' r' = sessionObj w r')
     /\ sessions w' = sessions w
     /\ spots w' = spots w /\ spotObj w' = spotObj w)
  /\ (sessionWithId w id = None -> close id exitTime amount w = (inr tt, w)).
Proof.
  split; [| apply close_not_found].
  intros r Hf _. rewrite (close_found _ _ _ _ _ Hf). cbn.
  rewrite fn_lookup_insert. cbn.
  assert (Hid : Session.id (sessionObj w r) = id).
  { unfold sessionWithId, Array_find in Hf.
    destruct (list_find _ _) as [[i x] |] eqn:E; [| discriminate].
    cbn in Hf. injection Hf as ->.
    now apply list_find_Some in E as (_ & HP & _). }
  repeat split; try assumption.
  intros r' Hr'. now rewrite !fn_lookup_insert_ne by congruence.
Qed.

Lemma close_sets_exit_and_amount_witness :
  Session.exitTime (sessionObj (snd (close "a" 7 3 twinLedger)) 0%nat) = Some 7
  /\ close "b" 7 3 twinLedger = (inr tt, twinLedger).
Proof.
  split.
  - apply (proj1 (close_sets_exit_and_amount "a" 7 3 twinLedger) 0%nat);
      reflexivity.
  - apply (proj2 (close_sets_exit_and_amount "b" 7 3 twinLedger)).
    reflexivity.
Defined.

(** ** Arrays: stable sort and filter *)

Section SortFacts.

Context {A : Type} (key : A -> Q).

Let byKey (a b : A) : Q := (key a - key b)%Q.

Lemma byKey_le (a b : A) : Qle_bool (byKey a b) 0 = true <-> (key a <= key b)%Q.
Proof. rewrite Qle_bool_iff. unfold byKey. split; intros; lra. Qed.

Lemma insertSorted_perm (x : A) (l : list A) :
  insertSorted byKey x l ≡ₚ x :: l.
Proof.
  induction l as [| y l IH]; cbn; [reflexivity |].
  destruct (Qle_bool _ _); [reflexivity |].
  rewrite IH. apply Permutation_swap.
Qed.

Lemma Array_sort_perm (l : list A) : Array_sort byKey l ≡ₚ l.
Proof.
  induction l as [| x l IH]; cbn; [reflexivity |].
  fold (Array_sort byKey l). now rewrite insertSorted_perm, IH.
Qed.

Lemma Array_sort_nil (l : list A) : Array_sort byKey l = [] -> l = [].
Proof.
  intros H. apply Permutation_nil_r. now rewrite <- H, Array_sort_perm.
Qed.

(** The sorted array is in non-decreasing key order. *)
Lemma insertSorted_sorted (x : A) (l : list A) :
  Sorted (fun a b => (key a <= key b)%Q) l ->
  Sorted (fun a b => (key a <= key b)%Q) (insertSorted byKey x l).
Proof.
  induction 1 as [| y l Hs IH Hhd]; cbn; [repeat constructor |].
  destruct (Qle_bool (byKey x y) 0) eqn:E.
  - apply byKey_le in E. repeat constructor; assumption.
  - assert (Hyx : (key y <= key x)%Q).
    { destruct (Qlt_le_dec (key y) (key x)) as [Hlt | Hle]; [lra |].
      apply byKey_le in Hle. congruence. }
    constructor; [exact IH |].
    destruct Hhd as [| z l Hyz]; cbn; [now constructor |].
    destruct (Qle_bool (byKey x z) 0); now constructor.
Qed.

Lemma Array_sort_sorted (l : list A) :
  Sorted (fun a b => (key a <= key b)%Q) (Array_sort byKey l).
Proof.
  induction l as [| x l IH]; cbn; [constructor |].
  now apply insertSorted_sorted.
Qed.

(** The first element of the sorted array is the first element of the
    original array among those with the least key. *)
Lemma Array_sort_head (l : list A) (c : A) (t : list A) :
  Array_sort byKey l = c :: t ->
  exists pre post,
    l = pre ++ c :: post
    /\ (forall x, x ∈ pre -> (key c < key x)%Q)
    /\ (forall x, x ∈ post -> (key c <= key x)%Q).
Proof.
  revert c t. induction l as [| x l IH]; intros c t; cbn; [discriminate |].
  fold (Array_sort byKey l).
  destruct (Array_sort byKey l) as [| c' t'] eqn:E; cbn.
  - intros [= <- <-]. apply Array_sort_nil in E as ->.
    exists [], []. repeat split; intros y Hy; inversion Hy.
  - destruct (IH _ _ eq_refl) as (pre & post & -> & Hpre & Hpost).
    destruct (Qle_bool (byKey x c') 0) eqn:Hb.
    + apply byKey_le in Hb. intros [= <- <-].
      exists [], (pre ++ c' :: post). repeat split.
      * intros y Hy. inversion Hy.
      * intros y [Hy | Hy]%elem_of_app.
        -- specialize (Hpre _ Hy). lra.
        -- apply elem_of_cons in Hy as [-> | Hy]; [exact Hb |].
           specialize (Hpost _ Hy). lra.
    + assert (Hlt : (key c' < key x)%Q).
      { destruct (Qlt_le_dec (key c') (key x)) as [Hlt | Hle]; [exact Hlt |].
        apply byKey_le in Hle. congruence. }
      intros [= <- <-]. exists (x :: pre), post. repeat split.
      * intros y [-> | Hy]%elem_of_cons; [exact Hlt | now apply Hpre].
      * exact Hpost.
Qed.

End SortFacts.

Lemma filter_split {A : Type} (P : A -> Prop) `{forall x, Decision (P x)}
    (l a b : list A) (c : A) :
  filter P l = a ++ c :: b ->
  exists pre post,
    l = pre ++ c :: post /\ filter P pre = a /\ filter P post = b /\ P c.
Proof.
  revert a. induction l as [| x l IH]; intros a Hf.
  - destruct a; discriminate.
  - rewrite filter_cons in Hf. destruct (decide (P x)) as [Hx | Hx].
    + destruct a as [| y a]; cbn in Hf.
      * injection Hf as -> <-. exists [], l. repeat split. exact Hx.
      * injection Hf as -> Hf. destruct (IH _ Hf) as (pre & post & -> & <- & <- & Hc).
        exists (y :: pre), post. repeat split; [| exact Hc].
        now rewrite filter_cons_True.
    + destruct (IH _ Hf) as (pre & post & -> & <- & <- & Hc).
      exists (x :: pre), post. repeat split; [| exact Hc].
      now rewrite filter_cons_False.
Qed.

(** ** Spot registry and allocator *)

Lemma spot_id_insert_status (h : ref -> Spot.t) (r : ref) (st : SpotStatus)
    (x : ref) :
  Spot.id ((<[r := Spot.setStatus st (h r)]> h) x) = Spot.id (h x).
Proof.
  destruct (decide (r = x)) as [-> | Hne].
  - now rewrite fn_lookup_insert.
  - now rewrite fn_lookup_insert_ne.
Qed.

(** Assigning the status of a spot does not move any id. *)
Lemma list_find_id_setStatus (w : World) (r : ref) (st : SpotStatus)
    (id : string) (l : list ref) :
  list_find
    (fun s => Spot.id ((<[r := Spot.setStatus st (spotObj w r)]> (spotObj w)) s) = id) l
  = list_find (fun s => Spot.id (spotObj w s) = id) l.
Proof.
  apply list_find_ext. intros x. now rewrite spot_id_insert_status.
Qed.

Lemma update_run (spot : ref) (w : World) (i : nat) (r0 : ref) :
  list_find (fun s => Spot.id (spotObj w s) = Spot.id (spotObj w spot)) (spots w)
    = Some (i, r0) ->
  update spot w = (inr tt, setSpots (<[i := spot]> (spots w)) w).
Proof.
  intros Hf. unfold update, bind, gets, findIndex, modify. rewrite Hf.
  destruct (Z.leb_spec 0 (Z.of_nat i)); [| lia]. now rewrite Nat2Z.id.
Qed.

Lemma sorted_head_in_registry (w : World) (size : VehicleType)
    (chosen : ref) (rest : list ref) :
  Array_sort (byDistanceRank w) (filter (availableOfSize w size) (spots w))
    = chosen :: rest ->
  chosen ∈ spots w /\ availableOfSize w size chosen.
Proof.
  intros Hs.
  assert (Hc : chosen ∈ filter (availableOfSize w size) (spots w)).
  { rewrite <- (Array_sort_perm (rank w)).
    unfold byDistanceRank in Hs. unfold rank. rewrite Hs. left. }
  apply list_elem_of_filter in Hc. tauto.
Qed.

Lemma allocate_run (now : Z) (uuid : string) (vehicle : VehicleDto)
    (w : World) (chosen : ref) (rest : list ref) :
  Array_sort (byDistanceRank w)
    (filter (availableOfSize w (type vehicle)) (spots w)) = chosen :: rest ->
  exists i r0,
    list_find (fun s => Spot.id (spotObj w s) = Spot.id (spotObj w chosen)) (spots w)
      = Some (i, r0)
    /\ allocate now uuid vehicle w
       = (inr chosen, allocatedWorld now uuid vehicle chosen i w).
Proof.
  intros Hs.
  destruct (sorted_head_in_registry _ _ _ _ Hs) as [Hin _].
  destruct (list_find_elem_of
              (fun s => Spot.id (spotObj w s) = Spot.id (spotObj w chosen))
              (spots w) chosen Hin eq_refl) as [[i r0] Hf].
  exists i, r0. split; [exact Hf |].
  unfold allocate, bind, listAvailableBySize, gets. cbv beta iota.
  destruct (decide _) as [Hlen | Hlen].
  { apply length_zero_iff_nil in Hlen. rewrite Hlen in Hs. discriminate. }
  rewrite Hs. unfold modifySpot, modify. cbv beta iota.
  erewrite update_run.
  2:{ cbn. rewrite spot_id_insert_status, list_find_id_setStatus. exact Hf. }
  cbn. unfold ret, allocatedWorld. now rewrite spot_id_insert_status.
Qed.

(** The head of the sorted candidates is the nearest candidate. *)
Lemma sorted_head_nearest (w : World) (size : VehicleType)
    (chosen : ref) (rest : list ref) :
  Array_sort (byDistanceRank w) (filter (availableOfSize w size) (spots w))
    = chosen :: rest ->
  nearestCandidate w size chosen.
Proof.
  intros Hs. split; [apply (sorted_head_in_registry _ _ _ _ Hs) |].
  destruct (Array_sort_head (rank w) _ _ _ Hs) as (a & b & Hab & Ha & Hb).
  destruct (filter_split _ _ _ _ _ Hab) as (pre & post & Hl & <- & <- & _).
  exists pre, post. split; [exact Hl |]. split.
  - intros c Hc Hav. apply Ha. apply list_elem_of_filter. tauto.
  - intros c Hc Hav. apply Hb. apply list_elem_of_filter. tauto.
Qed.

(** At most one reference is the nearest candidate. *)
Lemma nearestCandidate_unique (w : World) (size : VehicleType) (c1 c2 : ref) :
  nearestCandidate w size c1 -> nearestCandidate w size c2 -> c1 = c2.
Proof.
  intros (Hav1 & pre1 & post1 & H1 & Hpre1 & Hpost1)
         (Hav2 & pre2 & post2 & H2 & Hpre2 & Hpost2).
  rewrite H1 in H2.
  apply app_eq_app in H2 as (k & [[-> Hk] | [-> Hk]]).
  - destruct k as [| x k]; cbn in Hk.
    + now injection Hk.
    + injection Hk as <- ->.
      assert (Hlt : (rank w c1 < rank w c2)%Q).
      { apply Hpre1; [| exact Hav2]. apply elem_of_app. right. left. }
      assert (Hle : (rank w c2 <= rank w c1)%Q).
      { apply Hpost2; [| exact Hav1]. apply elem_of_app. right. left. }
      lra.
  - destruct k as [| x k]; cbn in Hk.
    + now injection Hk.
    + injection Hk as <- ->.
      assert (Hlt : (rank w c2 < rank w c1)%Q).
      { apply Hpre2; [| exact Hav1]. apply elem_of_app. right. left. }
      assert (Hle : (rank w c1 <= rank w c2)%Q).
      { apply Hpost1; [| exact Hav2]. apply elem_of_app. right. left. }
      lra.
Qed.

(** C7: when the registry has no [AVAILABLE] spot of the vehicle's type,
    [allocate] throws [NoSpace] and the store (spot registry and session
    ledger) is exactly the one it started from. *)
Theorem allocate_no_space (now : Z) (uuid : string) (vehicle : VehicleDto)
    (w : World) :
  (forall s, s ∈ spots w -> ~ availableOfSize w (type vehicle) s) ->
  allocate now uuid vehicle w = (inl "NoSpace", w).
Proof.
  intros Hnone.
  assert (Hf : filter (availableOfSize w (type vehicle)) (spots w) = []).
  { apply elem_of_nil_inv. intros s [Hs Hin]%list_elem_of_filter.
    now apply (Hnone s). }
  unfold allocate, bind, listAvailableBySize, gets. cbv beta iota.
  rewrite Hf. reflexivity.
Qed.

Lemma allocate_no_space_witness :
  allocate 0 "u1" (mkVehicle "B1" BUS) (initialWorld demoInventory)
  = (inl "NoSpace", initialWorld demoInventory).
Proof.
  apply allocate_no_space. intros s Hs [_ Hsize].
  cbn in Hs. apply elem_of_cons in Hs as [-> | Hs]; [discriminate |].
  apply elem_of_cons in Hs as [-> | Hs]; [discriminate |].
  inversion Hs.
Defined.

(** C6: when the registry holds an [AVAILABLE] spot of the vehicle's type,
    [allocate] returns the candidate of minimum [distanceRank], the first
    in registry order among equals, and that choice is unique.  Afterwards
    the status of that spot is [OCCUPIED] and its id, size, code and rank
    are as before; no other spot object changes; the spot is the one found
    under its id, every registry slot that holds a spot with another id
    keeps it, and with pairwise distinct ids the registry array is
    unchanged. *)
Theorem allocate_nearest_spot (now : Z) (uuid : string) (vehicle : VehicleDto)
    (w : World) :
  (exists s, s ∈ spots w /\ availableOfSize w (type vehicle) s) ->
  exists chosen,
    fst (allocate now uuid vehicle w) = inr chosen
    /\ nearestCandidate w (type vehicle) chosen
    /\ (forall c, nearestCandidate w (type vehicle) c -> c = chosen)
    /\ let w' := snd (allocate now uuid vehicle w) in
       Spot.status (spotObj w chosen) = AVAILABLE
       /\ Spot.status (spotObj w' chosen) = OCCUPIED
       /\ sameSpot (spotObj w' chosen) (spotObj w chosen)
       /\ (forall r, r <> chosen -> spotObj w' r = spotObj w r)
       /\ spotWithId w' (Spot.id (spotObj w chosen)) = Some chosen
       /\ length (spots w') = length (spots w)
       /\ (forall i r, spots w !! i = Some r ->
             Spot.id (spotObj w r) <> Spot.id (spotObj w chosen) ->
             spots w' !! i = Some r)
       /\ (NoDup (spotIds w) -> spots w' = spots w).
Proof.
  intros (s & Hin & Hav).
  destruct (Array_sort (byDistanceRank w)
              (filter (availableOfSize w (type vehicle)) (spots w)))
    as [| chosen rest] eqn:Hs.
  { apply (Array_sort_nil (rank w)) in Hs.
    assert (Hs' : s ∈ filter (availableOfSize w (type vehicle)) (spots w))
      by (apply list_elem_of_filter; tauto).
    rewrite Hs in Hs'. inversion Hs'. }
  pose proof (sorted_head_nearest _ _ _ _ Hs) as Hnear.
  destruct (sorted_head_in_registry _ _ _ _ Hs) as [Hcin _].
  destruct (allocate_run now uuid vehicle _ _ _ Hs) as (i & r0 & Hf & Hrun).
  apply list_find_Some in Hf as (Hi & Hid & Hleast).
  exists chosen. rewrite Hrun. cbn.
  split; [reflexivity |]. split; [exact Hnear |].
  split; [intros c Hc; exact (nearestCandidate_unique _ _ _ _ Hc Hnear) |].
  split; [apply Hnear |].
  split; [now rewrite fn_lookup_insert |].
  split; [rewrite fn_lookup_insert; repeat split |].
  split; [intros r Hr; now rewrite fn_lookup_insert_ne by congruence |].
  split.
  { unfold spotWithId, Array_find. cbn.
    rewrite list_find_id_setStatus.
    assert (Hfind : list_find
              (fun s0 => Spot.id (spotObj w s0) = Spot.id (spotObj w chosen))
              (<[i := chosen]> (spots w)) = Some (i, chosen)).
    { apply list_find_insert_Some. right. left.
      repeat split; eauto using lookup_lt_Some. }
    now rewrite Hfind. }
  split; [apply length_insert |].
  split.
  { intros j r Hj Hne. rewrite list_lookup_insert_ne; [exact Hj |].
    intros ->. rewrite Hi in Hj. injection Hj as ->. contradiction. }
  intros Hnd. apply list_insert_id.
  apply list_elem_of_lookup in Hcin as [j Hj].
  assert (Hij : i = j).
  { apply (NoDup_lookup (spotIds w) i j (Spot.id (spotObj w chosen)) Hnd);
      unfold spotIds; rewrite list_lookup_fmap.
    - rewrite Hi. cbn. now rewrite Hid.
    - now rewrite Hj. }
  now subst j.
Qed.

Lemma allocate_nearest_spot_witness :
  exists chosen,
    fst (allocate 0 "u1" (mkVehicle "ABC123" CAR) (initialWorld demoInventory))
      = inr chosen
    /\ Spot.id (spotObj (initialWorld demoInventory) chosen) = "s1"
    /\ Spot.status
         (spotObj (snd (allocate 0 "u1" (mkVehicle "ABC123" CAR)
                          (initialWorld demoInventory))) chosen) = OCCUPIED.
Proof.
  destruct (allocate_nearest_spot 0 "u1" (mkVehicle "ABC123" CAR)
              (initialWorld demoInventory))
    as (chosen & Hret & _ & _ & _ & Hocc & _).
  - exists 0%nat. split; [left | split; reflexivity].
  - exists chosen. split; [exact Hret |]. split; [| exact Hocc].
    cbn in Hret. injection Hret as <-. reflexivity.
Defined.

(** ** Coordinator *)

Lemma session_id_insert (h : ref -> Session.t) (r : ref) (f : Session.t -> Session.t)
    (x : ref) :
  (forall s, Session.id (f s) = Session.id s) ->
  Session.id ((<[r := f (h r)]> h) x) = Session.id (h x).
Proof.
  intros Hf. destruct (decide (r = x)) as [-> | Hne].
  - now rewrite fn_lookup_insert.
  - now rewrite fn_lookup_insert_ne.
Qed.

Lemma sessionWithId_Some (w : World) (id : string) (r : ref) :
  sessionWithId w id = Some r ->
  r ∈ sessions w /\ Session.id (sessionObj w r) = id.
Proof.
  unfold sessionWithId, Array_find. intros Hf.
  destruct (list_find _ _) as [[i x] |] eqn:E; [| discriminate].
  cbn in Hf. injection Hf as ->.
  apply list_find_Some in E as (Hi & HP & _).
  split; [| exact HP]. apply list_elem_of_lookup. eauto.
Qed.

Lemma spotWithId_Some (w : World) (id : string) (r : ref) :
  spotWithId w id = Some r ->
  exists i, list_find (fun s => Spot.id (spotObj w s) = Spot.id (spotObj w r)) (spots w) = Some (i, r).
Proof.
  unfold spotWithId, Array_find. intros Hf.
  destruct (list_find _ _) as [[i x] |] eqn:E; [| discriminate].
  cbn in Hf. injection Hf as ->. exists i.
  pose proof E as (_ & HP & _)%list_find_Some. now rewrite HP.
Qed.

Lemma release_run (spotId : string) (w : World) :
  release spotId w
  = (inr tt,
     match spotWithId w spotId with
     | None => w
     | Some sp =>
         setSpotObj (<[sp := Spot.setStatus AVAILABLE (spotObj w sp)]> (spotObj w)) w
     end).
Proof.
  unfold release, bind, findById, gets. fold (spotWithId w spotId).
  destruct (spotWithId w spotId) as [sp |] eqn:E; [| reflexivity].
  destruct (spotWithId_Some _ _ _ E) as [i Hi].
  unfold modifySpot, modify. cbv beta iota.
  erewrite update_run.
  2:{ cbn. rewrite spot_id_insert_status, list_find_id_setStatus. exact Hi. }
  cbn. apply list_find_Some in Hi as (Hi & _).
  rewrite list_insert_id by exact Hi. reflexivity.
Qed.

Lemma sessionWithId_modify (w : World) (r : ref) (f : Session.t -> Session.t)
    (id : string) :
  (forall s, Session.id (f s) = Session.id s) ->
  sessionWithId (setSessionObj (<[r := f (sessionObj w r)]> (sessionObj w)) w) id
  = sessionWithId w id.
Proof.
  intros Hf. unfold sessionWithId, Array_find. cbn. f_equal.
  apply list_find_ext. intros x. now rewrite session_id_insert.
Qed.

Lemma checkOut_not_found (now : Z) (sessionId : string) (w : World) :
  sessionWithId w sessionId = None ->
  checkOut now sessionId w = (inl "NotFound", w).
Proof.
  unfold sessionWithId. intros Hf. unfold checkOut, bind, gets. now rewrite Hf.
Qed.

Lemma checkOut_run (now : Z) (sessionId : string) (w : World) (r : ref) :
  sessionWithId w sessionId = Some r ->
  exists w',
    checkOut now sessionId w = (inr (feeAt now (sessionObj w r)), w')
    /\ sessionObj w' r
       = Session.setAmount (feeAt now (sessionObj w r))
           (Session.setExitTime now (sessionObj w r))
    /\ (forall r', r' <> r -> sessionObj w' r' = sessionObj w r')
    /\ sessions w' = sessions w
    /\ sessionNext w' = sessionNext w
    /\ spots w' = spots w
    /\ spotObj w'
       = match spotWithId w (Session.spotId (sessionObj w r)) with
         | None => spotObj w
         | Some sp => <[sp := Spot.setStatus AVAILABLE (spotObj w sp)]> (spotObj w)
         end.
Proof.
  intros Hf. unfold checkOut, bind, gets. cbv beta iota.
  fold (sessionWithId w sessionId). rewrite Hf.
  unfold modifySession at 1. unfold modify. cbv beta iota.
  set (w1 := setSessionObj _ w).
  assert (Hf1 : sessionWithId w1 sessionId = Some r).
  { unfold w1. now rewrite sessionWithId_modify. }
  assert (Hs1 : sessionObj w1 r = Session.setExitTime now (sessionObj w r)).
  { unfold w1. cbn. now rewrite fn_lookup_insert. }
  rewrite Hs1. cbn [Session.setExitTime Session.exitTime Session.vehicle Session.spotId default].
  erewrite close_found by exact Hf1.
  rewrite release_run.
  eexists. split; [reflexivity |].
  rewrite Hs1. unfold spotWithId, feeAt, w1.
  cbn [sessionObj spotObj sessions spots sessionNext setSpotObj setSessionObj
       Session.setExitTime Session.exitTime Session.vehicle Session.spotId].
  destruct (Array_find _ _) as [sp |];
    cbn [sessionObj spotObj sessions spots sessionNext setSpotObj setSessionObj];
    rewrite !fn_lookup_insert;
    (repeat split; try reflexivity);
    intros r' Hr'; now rewrite !fn_lookup_insert_ne by congruence.
Qed.

Lemma allocatedWorld_spotWithId (now : Z) (uuid : string) (vehicle : VehicleDto)
    (chosen : ref) (i : nat) (r0 : ref) (w : World) :
  list_find (fun s => Spot.id (spotObj w s) = Spot.id (spotObj w chosen)) (spots w)
    = Some (i, r0) ->
  spotWithId (allocatedWorld now uuid vehicle chosen i w)
             (Spot.id (spotObj w chosen)) = Some chosen.
Proof.
  intros (Hi & Hid & Hleast)%list_find_Some.
  unfold spotWithId, Array_find.
  cbn [allocatedWorld spotObj spots].
  rewrite list_find_id_setStatus.
  assert (Hfind : list_find
            (fun s0 => Spot.id (spotObj w s0) = Spot.id (spotObj w chosen))
            (<[i := chosen]> (spots w)) = Some (i, chosen)).
  { apply list_find_insert_Some. right. left.
    repeat split; eauto using lookup_lt_Some. }
  now rewrite Hfind.
Qed.

(** In an array that ends with [n], the first element that satisfies a
    predicate which holds of [n], and of no other element of the array, is
    [n]. *)
Lemma Array_find_last {A : Type} (P : A -> Prop) `{forall x, Decision (P x)}
    (l : list A) (n : A) :
  P n -> (forall x, x ∈ l -> P x -> x = n) ->
  Array_find P (l ++ [n]) = Some n.
Proof.
  intros Hn Hl. unfold Array_find.
  induction l as [| x l IH]; cbn.
  - now rewrite decide_True.
  - destruct (decide (P x)) as [Hx | Hx].
    + cbn. f_equal. apply Hl; [left | exact Hx].
    + rewrite <- option_fmap_compose.
      rewrite <- IH by (intros y Hy; apply Hl; now right).
      now destruct (list_find P (l ++ [n])) as [[j y] |].
Qed.

Lemma allocatedWorld_sessionWithId (now : Z) (uuid : string)
    (vehicle : VehicleDto) (chosen : ref) (i : nat) (w : World) :
  (forall r, r ∈ sessions w -> Session.id (sessionObj w r) <> uuid) ->
  sessionWithId (allocatedWorld now uuid vehicle chosen i w) uuid
  = Some (sessionNext w).
Proof.
  intros Hfresh. unfold sessionWithId. cbn [allocatedWorld sessionObj sessions].
  apply Array_find_last.
  - now rewrite fn_lookup_insert.
  - intros x Hx Hid. destruct (decide (x = sessionNext w)) as [-> | Hne]; [reflexivity |].
    rewrite fn_lookup_insert_ne in Hid by congruence.
    now destruct (Hfresh x Hx).
Qed.

Lemma checkIn_success_inv (now : Z) (uuid : string) (vehicle : VehicleDto)
    (w : World) (res : string * string) :
  fst (checkIn now uuid vehicle w) = inr res ->
  exists chosen i r0,
    list_find (fun s => Spot.id (spotObj w s) = Spot.id (spotObj w chosen)) (spots w)
      = Some (i, r0)
    /\ nearestCandidate w (type vehicle) chosen
    /\ allocate now uuid vehicle w
       = (inr chosen, allocatedWorld now uuid vehicle chosen i w)
    /\ checkIn now uuid vehicle w
       = (inr (Spot.id (spotObj w chosen), Spot.code (spotObj w chosen)),
          allocatedWorld now uuid vehicle chosen i w).
Proof.
  intros Hok.
  destruct (Array_sort (byDistanceRank w)
              (filter (availableOfSize w (type vehicle)) (spots w)))
    as [| chosen rest] eqn:Hs.
  { apply (Array_sort_nil (rank w)) in Hs.
    unfold checkIn, bind in Hok.
    rewrite allocate_no_space in Hok; [discriminate |].
    intros s Hin Hav.
    assert (Hs' : s ∈ filter (availableOfSize w (type vehicle)) (spots w))
      by (apply list_elem_of_filter; tauto).
    rewrite Hs in Hs'. inversion Hs'. }
  destruct (allocate_run now uuid vehicle _ _ _ Hs) as (i & r0 & Hf & Hrun).
  exists chosen, i, r0. split; [exact Hf |].
  split; [exact (sorted_head_nearest _ _ _ _ Hs) |].
  split; [exact Hrun |].
  unfold checkIn, bind, gets. rewrite Hrun.
  cbn [allocatedWorld spotObj]. now rewrite fn_lookup_insert.
Qed.

Lemma spec_amount_ge_base (entry exit : Z) (rate : FlatPerHourCalculator) :
  (0 <= perHour rate)%Q -> (base rate <= spec_amount entry exit rate)%Q.
Proof.
  intros Hp. unfold spec_amount.
  assert (H : (0 <= inject_Z (spec_billableHours entry exit rate) * perHour rate)%Q).
  { apply Qmult_le_0_compat; [| exact Hp].
    change 0%Q with (inject_Z 0). rewrite <- Zle_Qle.
    apply spec_billableHours_nonneg. }
  lra.
Qed.

Lemma factory_perHour_nonneg (ty : VehicleType) :
  (0 <= perHour (FeeCalculatorFactory_for ty))%Q.
Proof. destruct ty; discriminate. Qed.

(** Every amount [checkOut] charges is at least the base charge of the
    vehicle's type. *)
Lemma feeAt_ge_base (now : Z) (s : Session.t) :
  (base (FeeCalculatorFactory_for (type (Session.vehicle s))) <= feeAt now s)%Q.
Proof.
  unfold feeAt. rewrite calculate_closed.
  apply spec_amount_ge_base, factory_perHour_nonneg.
Qed.

(** C9, as stated, fails: the two clock readings are never compared, so
    when the clock reads less at check-out than it did at check-in the
    session is closed with an exit time before its entry time. *)
Lemma checkOut_with_clock_set_back :
  let w1 := snd (checkIn 100 "u1" (mkVehicle "A" CAR) (initialWorld oneSpot)) in
  let out := checkOut 0 "u1" w1 in
  fst (checkIn 100 "u1" (mkVehicle "A" CAR) (initialWorld oneSpot))
    = inr ("s1", "F1-A1")
  /\ sessionWithId w1 "u1" = Some 0%nat
  /\ fst out = inr 1%Q
  /\ Session.entryTime (sessionObj (snd out) 0%nat) = 100
  /\ Session.exitTime (sessionObj (snd out) 0%nat) = Some 0
  /\ ~ (Session.entryTime (sessionObj (snd out) 0%nat) <= 0).
Proof. vm_compute. repeat split. intros H. apply H. reflexivity. Qed.

(** C9 (amended): in every state where [checkIn] succeeds with a freshly
    generated session id, a following [checkOut] of that session returns an
    amount of at least the base charge of the vehicle's type and leaves the
    allocated spot [AVAILABLE] again; the session keeps the clock reading
    of the check-in as entry time and records the clock reading of the
    check-out as exit time, so the exit time is not before the entry time
    exactly when the clock did not go back between the two readings. *)
Theorem checkIn_checkOut_roundtrip (tIn tOut : Z) (uuid : string)
    (vehicle : VehicleDto) (w : World) (res : string * string) :
  fst (checkIn tIn uuid vehicle w) = inr res ->
  (forall r, r ∈ sessions w -> Session.id (sessionObj w r) <> uuid) ->
  let w1 := snd (checkIn tIn uuid vehicle w) in
  let w2 := snd (checkOut tOut uuid w1) in
  exists chosen session amount,
    fst (allocate tIn uuid vehicle w) = inr chosen
    /\ res = (Spot.id (spotObj w chosen), Spot.code (spotObj w chosen))
    /\ Spot.status (spotObj w1 chosen) = OCCUPIED
    /\ sessionWithId w1 uuid = Some session
    /\ isOpen w1 session
    /\ Session.spotId (sessionObj w1 session) = Spot.id (spotObj w chosen)
    /\ fst (checkOut tOut uuid w1) = inr amount
    /\ (base (FeeCalculatorFactory_for (type vehicle)) <= amount)%Q
    /\ Spot.status (spotObj w2 chosen) = AVAILABLE
    /\ Session.exitTime (sessionObj w2 session) = Some tOut
    /\ Session.entryTime (sessionObj w2 session) = tIn
    /\ (forall e, Session.exitTime (sessionObj w2 session) = Some e ->
          (Session.entryTime (sessionObj w2 session) <= e <-> tIn <= tOut))
    /\ Session.amount (sessionObj w2 session) = Some amount.
Proof.
  intros Hok Hfresh w1 w2.
  destruct (checkIn_success_inv _ _ _ _ _ Hok)
    as (chosen & i & r0 & Hf & _ & Halloc & Hin).
  assert (Hw1 : w1 = allocatedWorld tIn uuid vehicle chosen i w)
    by (unfold w1; now rewrite Hin).
  rewrite Hin in Hok. cbn in Hok. injection Hok as <-.
  pose proof (allocatedWorld_sessionWithId tIn uuid vehicle chosen i w Hfresh)
    as Hsess.
  rewrite <- Hw1 in Hsess.
  destruct (checkOut_run tOut uuid w1 _ Hsess)
    as (w' & Hrun & Hobj & _ & _ & _ & _ & Hspots).
  assert (Hw2 : w2 = w') by (unfold w2; now rewrite Hrun).
  assert (Hnew : sessionObj w1 (sessionNext w)
                 = Session.mk uuid vehicle (Spot.id (spotObj w chosen)) tIn
                              None None).
  { rewrite Hw1. cbn [allocatedWorld sessionObj]. now rewrite fn_lookup_insert. }
  exists chosen, (sessionNext w), (feeAt tOut (sessionObj w1 (sessionNext w))).
  rewrite Halloc, Hrun, Hw2, Hobj, Hnew.
  cbn [fst Session.setAmount Session.setExitTime Session.exitTime
       Session.entryTime Session.amount Session.spotId].
  assert (Hiff : forall e : Z, Some tOut = Some e -> (tIn <= e <-> tIn <= tOut)).
  { intros e [= <-]. tauto. }
  split; [reflexivity |]. split; [reflexivity |].
  split.
  { rewrite Hw1. cbn [allocatedWorld spotObj]. now rewrite fn_lookup_insert. }
  split; [exact Hsess |].
  split; [unfold isOpen; now rewrite Hnew |].
  split; [reflexivity |]. split; [reflexivity |].
  split.
  { apply (feeAt_ge_base tOut
             (Session.mk uuid vehicle (Spot.id (spotObj w chosen)) tIn None None)). }
  split.
  { rewrite Hspots, Hnew. cbn [Session.spotId].
    rewrite Hw1, (allocatedWorld_spotWithId _ _ _ _ _ _ _ Hf).
    now rewrite fn_lookup_insert. }
  split; [reflexivity |]. split; [reflexivity |].
  split; [exact Hiff | reflexivity].
Qed.

Lemma checkIn_checkOut_roundtrip_witness :
  let w0 := initialWorld demoInventory in
  let w1 := snd (checkIn 0 "u1" (mkVehicle "ABC123" CAR) w0) in
  let w2 := snd (checkOut 100 "u1" w1) in
  exists chosen session amount,
    fst (allocate 0 "u1" (mkVehicle "ABC123" CAR) w0) = inr chosen
    /\ Spot.status (spotObj w2 chosen) = AVAILABLE
    /\ fst (checkOut 100 "u1" w1) = inr amount
    /\ Session.exitTime (sessionObj w2 session) = Some 100.
Proof.
  intros w0 w1 w2.
  destruct (checkIn_checkOut_roundtrip 0 100 "u1" (mkVehicle "ABC123" CAR) w0
              ("s1", "F1-A1"))
    as (chosen & session & amount & H1 & _ & _ & _ & _ & _ & H7 & _ & H9 & H10 & _).
  - reflexivity.
  - intros r Hr. inversion Hr.
  - exists chosen, session, amount. repeat split; assumption.
Defined.

(** [checkOut] never looks at the exit time of the session it finds: a
    session that is already closed is closed again, with a new exit time
    and a newly computed amount. *)
Lemma checkOut_closed_session (now : Z) (sessionId : string) (w : World)
    (r : ref) :
  sessionWithId w sessionId = Some r -> ~ isOpen w r ->
  fst (checkOut now sessionId w) = inr (feeAt now (sessionObj w r))
  /\ Session.exitTime (sessionObj (snd (checkOut now sessionId w)) r) = Some now.
Proof.
  intros Hf _. destruct (checkOut_run now _ _ _ Hf) as (w' & -> & Hobj & _).
  split; [reflexivity |]. cbn [snd]. now rewrite Hobj.
Qed.

(** C1 (the code departs from it): after a check-in at instant 0 and a
    check-out 30 minutes later, which charges 3, a second [checkOut] of the
    same session id five hours after the entry does not fail: it returns
    11 and overwrites the exit time and the amount of the closed
    session. *)
Theorem checkOut_twice_charges_again :
  let w1 := snd (checkIn 0 "u1" (mkVehicle "A" CAR) (initialWorld oneSpot)) in
  let first := checkOut 1800000 "u1" w1 in
  let second := checkOut 18000000 "u1" (snd first) in
  sessionWithId w1 "u1" = Some 0%nat
  /\ fst first = inr 3%Q
  /\ Session.exitTime (sessionObj (snd first) 0%nat) = Some 1800000
  /\ Session.amount (sessionObj (snd first) 0%nat) = Some 3%Q
  /\ fst second = inr 11%Q
  /\ Session.exitTime (sessionObj (snd second) 0%nat) = Some 18000000
  /\ Session.amount (sessionObj (snd second) 0%nat) = Some 11%Q.
Proof. vm_compute. repeat split. Qed.

(** C2 (the code departs from it): starting from one [AVAILABLE] spot, the
    scenario [doubleCheckOut] ends with the spot [AVAILABLE] while exactly
    one open session, the second car's, references it. *)
Theorem double_checkOut_breaks_spotInvariant :
  let w := runOps doubleCheckOut (initialWorld oneSpot) in
  spots w = [0%nat]
  /\ Spot.id (spotObj w 0%nat) = "s1"
  /\ Spot.status (spotObj w 0%nat) = AVAILABLE
  /\ openSessionsOn w "s1" = [1%nat]
  /\ ~ spotInvariant w.
Proof.
  assert (H : let w := runOps doubleCheckOut (initialWorld oneSpot) in
              spots w = [0%nat]
              /\ Spot.id (spotObj w 0%nat) = "s1"
              /\ Spot.status (spotObj w 0%nat) = AVAILABLE
              /\ openSessionsOn w "s1" = [1%nat])
    by (vm_compute; repeat split).
  cbv zeta in *. destruct H as (Hs & Hid & Hst & Hopen).
  repeat split; try assumption.
  intros Hinv. specialize (Hinv 0%nat). rewrite Hs in Hinv.
  specialize (Hinv ltac:(left)). rewrite Hid, Hopen, Hst in Hinv.
  destruct Hinv as [_ Hinv]. specialize (Hinv eq_refl). discriminate.
Qed.

(** ** The occupancy invariant *)

Section FilterFacts.
Context {A : Type} (P P' : A -> Prop) `{forall x, Decision (P x)}
        `{forall x, Decision (P' x)}.

Lemma filter_ext_elem (l : list A) :
  (forall x, x ∈ l -> (P' x <-> P x)) -> filter P' l = filter P l.
Proof.
  induction l as [| a l IH]; intros Hl; [reflexivity |].
  rewrite !filter_cons.
  rewrite IH by (intros x Hx; apply Hl; now right).
  destruct (decide (P' a)) as [Ha | Ha], (decide (P a)) as [Hb | Hb];
    try reflexivity; exfalso.
  - apply Hb, (Hl a); [left | exact Ha].
  - apply Ha, (Hl a); [left | exact Hb].
Qed.

Lemma filter_drop_one (l : list A) (r : A) :
  NoDup l -> r ∈ l -> P r -> ~ P' r ->
  (forall x, x <> r -> (P' x <-> P x)) ->
  length (filter P l) = S (length (filter P' l)).
Proof.
  intros Hnd Hr HPr HP'r Hother.
  induction l as [| a l IH]; [inversion Hr |].
  apply NoDup_cons in Hnd as [Ha Hnd].
  rewrite !filter_cons.
  apply elem_of_cons in Hr as [<- | Hr].
  - rewrite decide_True by exact HPr. rewrite decide_False by exact HP'r.
    cbn. f_equal. f_equal. symmetry. apply filter_ext_elem.
    intros x Hx. apply Hother. intros ->. contradiction.
  - assert (Hne : a <> r) by (intros ->; contradiction).
    specialize (IH Hnd Hr).
    destruct (decide (P a)) as [Hb | Hb], (decide (P' a)) as [Hc | Hc]; cbn;
      try (now rewrite IH); exfalso.
    + apply Hc, Hother; assumption.
    + apply Hb, Hother; assumption.
Qed.
End FilterFacts.

Lemma openSessions_ext (h h' : ref -> Session.t) (y : string) (l : list ref) :
  (forall s, s ∈ l -> h' s = h s) ->
  filter (fun s => Session.exitTime (h' s) = None /\ Session.spotId (h' s) = y) l
  = filter (fun s => Session.exitTime (h s) = None /\ Session.spotId (h s) = y) l.
Proof.
  intros Hl. apply filter_ext_elem. intros x Hx. now rewrite (Hl x Hx).
Qed.

Lemma consistent_spotInvariant (w : World) : consistent w -> spotInvariant w.
Proof.
  intros (_ & _ & _ & Hsp) r Hr.
  destruct (Hsp r Hr) as [[Hst Hn] | [Hst Hn]]; rewrite Hst, Hn; split;
    intros; congruence.
Qed.

(** With pairwise distinct ids, the first spot with the id of a spot of the
    registry is that spot. *)
Lemma list_find_own_id (w : World) (r : ref) (i : nat) (r0 : ref) :
  NoDup (spotIds w) -> r ∈ spots w ->
  list_find (fun s => Spot.id (spotObj w s) = Spot.id (spotObj w r)) (spots w)
    = Some (i, r0) ->
  r0 = r.
Proof.
  intros Hnd Hin (Hi & Hid & _)%list_find_Some.
  apply list_elem_of_lookup in Hin as [j Hj].
  assert (Hij : i = j).
  { apply (NoDup_lookup (spotIds w) i j (Spot.id (spotObj w r)) Hnd);
      unfold spotIds; rewrite list_lookup_fmap.
    - rewrite Hi. cbn. now rewrite Hid.
    - now rewrite Hj. }
  subst j. congruence.
Qed.

Lemma spot_ids_distinct (w : World) (r1 r2 : ref) :
  NoDup (spotIds w) -> r1 ∈ spots w -> r2 ∈ spots w ->
  Spot.id (spotObj w r1) = Spot.id (spotObj w r2) -> r1 = r2.
Proof.
  intros Hnd [i Hi]%list_elem_of_lookup [j Hj]%list_elem_of_lookup Hid.
  assert (Hij : i = j).
  { apply (NoDup_lookup (spotIds w) i j (Spot.id (spotObj w r1)) Hnd);
      unfold spotIds; rewrite list_lookup_fmap.
    - now rewrite Hi.
    - rewrite Hj. cbn. now rewrite Hid. }
  subst j. congruence.
Qed.

Lemma spotIds_setStatus (w : World) (h : ref -> Spot.t) (l : list ref) :
  (forall x, Spot.id (h x) = Spot.id (spotObj w x)) ->
  (fun r => Spot.id (h r)) <$> l = (fun r => Spot.id (spotObj w r)) <$> l.
Proof. intros Hh. apply list_fmap_ext. intros _ x _. apply Hh. Qed.

Lemma checkIn_consistent (now : Z) (uuid : string) (vehicle : VehicleDto)
    (w : World) :
  consistent w -> consistent (snd (checkIn now uuid vehicle w)).
Proof.
  intros Hc.
  destruct (fst (checkIn now uuid vehicle w)) as [e | res] eqn:Hres.
  { (* the only failure is NoSpace, before any mutation *)
    assert (Hw : snd (checkIn now uuid vehicle w) = w); [| now rewrite Hw].
    unfold checkIn, bind in *.
    destruct (Array_sort (byDistanceRank w)
                (filter (availableOfSize w (type vehicle)) (spots w)))
      as [| chosen rest] eqn:Hs.
    - apply (Array_sort_nil (rank w)) in Hs.
      rewrite allocate_no_space; [reflexivity |].
      intros s Hin Hav.
      assert (Hs' : s ∈ filter (availableOfSize w (type vehicle)) (spots w))
        by (apply list_elem_of_filter; tauto).
      rewrite Hs in Hs'. inversion Hs'.
    - destruct (allocate_run now uuid vehicle _ _ _ Hs) as (i & r0 & _ & Hrun).
      rewrite Hrun in Hres. discriminate. }
  destruct (checkIn_success_inv _ _ _ _ _ Hres)
    as (chosen & i & r0 & Hf & Hnear & _ & ->).
  cbn [snd]. destruct Hc as (Hids & Hnd & Hlt & Hsp).
  destruct Hnear as ([Hav _] & pre & post & Hsplit & _).
  assert (Hcin : chosen ∈ spots w).
  { rewrite Hsplit. apply elem_of_app. right. left. }
  assert (Hr0 : r0 = chosen) by (eapply list_find_own_id; eauto). subst r0.
  assert (Hspots : <[i := chosen]> (spots w) = spots w).
  { apply list_insert_id. now apply list_find_Some in Hf as (? & _). }
  assert (Hfresh : sessionNext w ∉ sessions w).
  { intros Hin. specialize (Hlt _ Hin). lia. }
  unfold consistent, spotIds, openSessionsOn, isOpen.
  cbn [allocatedWorld spotObj spots sessionObj sessions sessionNext].
  rewrite Hspots. repeat split.
  - erewrite spotIds_setStatus; [exact Hids |].
    intros x. apply spot_id_insert_status.
  - apply NoDup_app. repeat split; [exact Hnd | | apply NoDup_singleton].
    intros x Hx ->%list_elem_of_singleton. contradiction.
  - intros s [Hs | ->%list_elem_of_singleton]%elem_of_app; [| lia].
    specialize (Hlt _ Hs). lia.
  - intros r Hr. rewrite filter_app, length_app.
    rewrite (openSessions_ext (sessionObj w)).
    2:{ intros x Hx. apply fn_lookup_insert_ne. intros E. now rewrite E in Hfresh. }
    rewrite spot_id_insert_status.
    change (filter _ (sessions w)) with (openSessionsOn w (Spot.id (spotObj w r))).
    rewrite filter_singleton; [| exact []].
    destruct (decide (r = chosen)) as [-> | Hne].
    + right. rewrite (fn_lookup_insert (spotObj w)). split; [reflexivity |].
      rewrite decide_True by (rewrite (fn_lookup_insert (sessionObj w)); now split).
      destruct (Hsp chosen Hcin) as [[_ ->] | [Hocc _]]; [reflexivity | congruence].
    + rewrite (fn_lookup_insert_ne (spotObj w)) by congruence.
      rewrite decide_False.
      2:{ rewrite (fn_lookup_insert (sessionObj w)). intros [_ Hid]. apply Hne.
          symmetry in Hid. eapply spot_ids_distinct; eauto. }
      cbn. rewrite Nat.add_0_r. apply Hsp, Hr.
Qed.

Lemma spotWithId_own (w : World) (q : ref) :
  NoDup (spotIds w) -> q ∈ spots w ->
  spotWithId w (Spot.id (spotObj w q)) = Some q.
Proof.
  intros Hnd Hq. unfold spotWithId, Array_find.
  destruct (list_find_elem_of
              (fun s => Spot.id (spotObj w s) = Spot.id (spotObj w q))
              (spots w) q Hq eq_refl) as [[i r0] Hf].
  rewrite Hf. cbn. f_equal. eapply list_find_own_id; eauto.
Qed.

Lemma spotWithId_id (w : World) (x : string) (sp : ref) :
  spotWithId w x = Some sp -> Spot.id (spotObj w sp) = x /\ sp ∈ spots w.
Proof.
  unfold spotWithId, Array_find. intros Hf.
  destruct (list_find _ _) as [[i y] |] eqn:E; [| discriminate].
  cbn in Hf. injection Hf as ->.
  apply list_find_Some in E as (Hi & HP & _).
  split; [exact HP |]. apply list_elem_of_lookup. eauto.
Qed.

Lemma checkOut_consistent (now : Z) (sessionId : string) (w : World) :
  consistent w ->
  (forall r, sessionWithId w sessionId = Some r -> isOpen w r) ->
  consistent (snd (checkOut now sessionId w)).
Proof.
  intros Hc Hopen.
  destruct (sessionWithId w sessionId) as [r |] eqn:Hf.
  2:{ now rewrite checkOut_not_found. }
  specialize (Hopen r eq_refl).
  destruct (sessionWithId_Some _ _ _ Hf) as [Hrin _].
  destruct (checkOut_run now _ _ _ Hf)
    as (w' & -> & Hobj & Hothers & Hsess & Hnext & Hspots & Hsobj).
  cbn [snd]. destruct Hc as (Hids & Hnd & Hlt & Hsp).
  set (x := Session.spotId (sessionObj w r)) in *.
  assert (Hid' : forall q, Spot.id (spotObj w' q) = Spot.id (spotObj w q)).
  { intros q. rewrite Hsobj. destruct (spotWithId w x); [| reflexivity].
    apply spot_id_insert_status. }
  unfold consistent. rewrite Hsess, Hnext.
  split; [| split; [exact Hnd | split; [exact Hlt |]]].
  { unfold spotIds. rewrite Hspots.
    erewrite list_fmap_ext; [exact Hids |]. intros _ q _. apply Hid'. }
  intros q Hq. rewrite Hspots in Hq. rewrite Hid'.
  unfold openSessionsOn, isOpen. rewrite Hsess.
  destruct (decide (Spot.id (spotObj w q) = x)) as [Hqx | Hqx].
  - left. split.
    + rewrite Hsobj, <- Hqx, (spotWithId_own _ _ Hids Hq).
      now rewrite fn_lookup_insert.
    + assert (Hlen : length (openSessionsOn w (Spot.id (spotObj w q)))
                     = S (length (filter
                            (fun s => Session.exitTime (sessionObj w' s) = None
                                      /\ Session.spotId (sessionObj w' s)
                                         = Spot.id (spotObj w q))
                            (sessions w)))).
      { unfold openSessionsOn, isOpen. apply (filter_drop_one _ _ _ r Hnd Hrin).
        - split; [exact Hopen | now rewrite Hqx].
        - rewrite Hobj. cbn. intros [? _]. discriminate.
        - intros s Hs. now rewrite Hothers. }
      destruct (Hsp q Hq) as [[_ H0] | [_ H1]]; lia.
  - assert (Hst : spotObj w' q = spotObj w q).
    { rewrite Hsobj. destruct (spotWithId w x) as [sp |] eqn:E; [| reflexivity].
      apply spotWithId_id in E as [E _].
      apply fn_lookup_insert_ne. intros ->. contradiction. }
    rewrite Hst.
    assert (Hsame : filter
                      (fun s => Session.exitTime (sessionObj w' s) = None
                                /\ Session.spotId (sessionObj w' s)
                                   = Spot.id (spotObj w q))
                      (sessions w)
                    = openSessionsOn w (Spot.id (spotObj w q))).
    { apply filter_ext_elem. intros s _.
      destruct (decide (s = r)) as [-> | Hs].
      - rewrite Hobj. cbn. unfold isOpen. fold x. split.
        + intros [? _]. discriminate.
        + intros [_ ?]. congruence.
      - unfold isOpen. now rewrite Hothers. }
    rewrite Hsame. apply Hsp, Hq.
Qed.

Lemma step_consistent (op : Op) (w : World) :
  consistent w -> checksOutOpen op w -> consistent (step op w).
Proof.
  destruct op as [now uuid vehicle | now sessionId]; cbn.
  - intros Hc _. now apply checkIn_consistent.
  - apply checkOut_consistent.
Qed.

Lemma runOps_consistent (ops : list Op) (w : World) :
  consistent w -> disciplined ops w -> consistent (runOps ops w).
Proof.
  revert w. induction ops as [| op ops IH]; intros w Hc Hd; [exact Hc |].
  destruct Hd as [Hop Hd]. cbn. apply IH; [| exact Hd].
  now apply step_consistent.
Qed.

(** The invariant of the data model holds in every state reached from an
    inventory of [AVAILABLE] spots with pairwise distinct ids and an empty
    ledger, as long as no closed session is checked out again. *)
Theorem spotInvariant_disciplined (ops : list Op) (w0 : World) :
  sessions w0 = [] ->
  NoDup (spotIds w0) ->
  (forall r, r ∈ spots w0 -> Spot.status (spotObj w0 r) = AVAILABLE) ->
  disciplined ops w0 ->
  spotInvariant (runOps ops w0).
Proof.
  intros Hs Hids Hav Hd.
  apply consistent_spotInvariant, runOps_consistent; [| exact Hd].
  repeat split; try assumption.
  - rewrite Hs. constructor.
  - rewrite Hs. intros s Hin. inversion Hin.
  - intros r Hr. left. split; [now apply Hav |].
    unfold openSessionsOn. now rewrite Hs.
Qed.

Example singleCheckOut_disciplined :
  disciplined [ CheckIn 0 "u1" (mkVehicle "A" CAR);
                CheckOut 1800000 "u1";
                CheckIn 3600000 "u2" (mkVehicle "B" CAR) ]
              (initialWorld oneSpot).
Proof.
  cbn. repeat split. intros r Hr. vm_compute in Hr. injection Hr as <-.
  reflexivity.
Qed.

(** ** The scenarios of the test suite and of the specification *)

(** [tests/allocator.test.ts]: the only spot is allocated and becomes
    [OCCUPIED]. *)
Example test_allocates_available_spot :
  let w0 := initialWorld [Spot.mk "s1" CAR "S1" AVAILABLE 1] in
  let r := allocate 0 "u1" (mkVehicle "X" CAR) w0 in
  fst r = inr 0%nat
  /\ Spot.id (spotObj (snd r) 0%nat) = "s1"
  /\ (Spot.status <$> (spotObj (snd r) <$> spotWithId (snd r) "s1"))
     = Some OCCUPIED.
Proof. vm_compute. repeat split. Qed.

(** Allocation determinism: of two available car spots with ranks 2 and 1,
    the second is selected and the first stays [AVAILABLE]. *)
Example allocation_prefers_lower_rank :
  let w0 := initialWorld [ Spot.mk "s1" CAR "S1" AVAILABLE 2;
                           Spot.mk "s2" CAR "S2" AVAILABLE 1 ] in
  let r := checkIn 0 "u1" (mkVehicle "X" CAR) w0 in
  fst r = inr ("s2", "S2")
  /\ Spot.status (spotObj (snd r) 1%nat) = OCCUPIED
  /\ Spot.status (spotObj (snd r) 0%nat) = AVAILABLE.
Proof. vm_compute. repeat split. Qed.

(** With equal ranks the spot that comes first in the inventory wins. *)
Example allocation_tie_first_encountered :
  let w0 := initialWorld [ Spot.mk "s1" CAR "S1" AVAILABLE 2;
                           Spot.mk "s2" CAR "S2" AVAILABLE 1;
                           Spot.mk "s3" CAR "S3" AVAILABLE 1 ] in
  fst (checkIn 0 "u1" (mkVehicle "X" CAR) w0) = inr ("s2", "S2").
Proof. vm_compute. reflexivity. Qed.

(** When two spots carry the same id, [update] stores the chosen object in
    the first slot with that id: both slots of the registry then hold the
    same object. *)
Example allocate_with_repeated_id :
  let w0 := initialWorld repeatedIdInventory in
  let r := allocate 0 "u1" (mkVehicle "X" CAR) w0 in
  fst r = inr 1%nat
  /\ spots w0 = [0%nat; 1%nat]
  /\ spots (snd r) = [1%nat; 1%nat]
  /\ Spot.status (spotObj (snd r) 1%nat) = OCCUPIED
  /\ spotObj (snd r) 0%nat = spotObj w0 0%nat.
Proof. vm_compute. repeat split. Qed.

(** * Further properties of the code *)

Local Open Scope Q_scope.

Lemma calculate_open (self : FlatPerHourCalculator) (now : Z) (s : Session.t) :
  Session.exitTime s = None ->
  calculate self now s = calculate self now (Session.setExitTime now s).
Proof. intros H. unfold calculate. cbn. now rewrite H. Qed.

Lemma calculate_as_closed (self : FlatPerHourCalculator) (now : Z) (s : Session.t) :
  calculate self now s
  = spec_amount (Session.entryTime s) (default now (Session.exitTime s)) self.
Proof.
  destruct (Session.exitTime s) as [d |] eqn:E; cbn.
  - rewrite <- (calculate_closed self now s d). unfold calculate. cbn. now rewrite E.
  - rewrite calculate_open by exact E. apply calculate_closed.
Qed.

(** X1: with a non-negative hourly charge the fee is never below the base
    charge, for an open session as for a closed one; and an open session
    is billed up to the current instant: its fee is the formula's amount
    from the entry time to [now], the fee it would have if it were closed
    at [now]. *)
Theorem calculate_at_least_base (self : FlatPerHourCalculator) (now : Z)
    (session : Session.t) :
  (0 <= perHour self -> base self <= calculate self now session)
  /\ (Session.exitTime session = None ->
      calculate self now session
      = spec_amount (Session.entryTime session) now self
      /\ calculate self now session
         = calculate self now (Session.setExitTime now session)).
Proof.
  split.
  - intros Hp. rewrite calculate_as_closed. now apply spec_amount_ge_base.
  - intros Hopen. split; [| now apply calculate_open].
    rewrite calculate_as_closed. now rewrite Hopen.
Qed.

Lemma calculate_at_least_base_witness :
  base defaultCalculator <= calculate defaultCalculator 7200000 (sessionAt 0 None)
  /\ calculate defaultCalculator 7200000 (sessionAt 0 None)
     = spec_amount 0 7200000 defaultCalculator.
Proof.
  destruct (calculate_at_least_base defaultCalculator 7200000 (sessionAt 0 None))
    as [Hge Hopen].
  split.
  - apply Hge. vm_compute. discriminate.
  - apply Hopen. reflexivity.
Defined.

(** X2: the fee depends on the length of the stay only: moving the entry
    time, the exit time and the clock by the same amount does not change
    it. *)
Theorem calculate_shift (self : FlatPerHourCalculator) (now k : Z)
    (session : Session.t) :
  calculate self (now + k) (shiftSession k session) = calculate self now session.
Proof.
  unfold calculate, shiftSession. cbn.
  destruct (Session.exitTime session) as [d |]; cbn.
  - now replace (d + k - (Session.entryTime session + k))%Z
      with (d - Session.entryTime session)%Z by lia.
  - now replace (now + k - (Session.entryTime session + k))%Z
      with (now - Session.entryTime session)%Z by lia.
Qed.

Lemma factory_grace_whole (ty : VehicleType) :
  exists g : Z, graceMinutes (FeeCalculatorFactory_for ty) = inject_Z g.
Proof. destruct ty; [exists 15%Z | exists 10%Z | exists 0%Z]; reflexivity. Qed.

Lemma elapsed_le_whole (entry exit g : Z) :
  durationMinutes entry exit <= inject_Z g ->
  inject_Z (spec_elapsedMinutes entry exit) <= inject_Z g.
Proof.
  intros H. rewrite <- Zle_Qle, <- (Qceiling_Z g). now apply Qceiling_resp_le.
Qed.

(** X4: with the rates of [FeeCalculatorFactory], the amount [checkOut]
    computes for a stay within the grace period of the vehicle's type is
    exactly the base charge, and for a stay of up to one hour beyond it
    exactly base charge plus one hourly charge. *)
Theorem feeAt_grace_window (now : Z) (session : Session.t) :
  let rate := FeeCalculatorFactory_for (type (Session.vehicle session)) in
  let d := durationMinutes (Session.entryTime session) now in
  (d <= graceMinutes rate -> feeAt now session == base rate)
  /\ (graceMinutes rate < d -> d <= graceMinutes rate + 60 ->
      feeAt now session == base rate + perHour rate).
Proof.
  intros rate d. unfold feeAt. fold rate. rewrite calculate_closed.
  unfold spec_amount.
  destruct (factory_grace_whole (type (Session.vehicle session))) as [g Hg].
  fold rate in Hg. split.
  - intros Hd. rewrite spec_billableHours_0; [ring |].
    rewrite Hg in *. now apply elapsed_le_whole.
  - intros Hlo Hhi. rewrite spec_billableHours_1; [ring | |].
    + eapply Qlt_le_trans; [exact Hlo |]. apply Qle_ceiling.
    + rewrite Hg in *. change 60 with (inject_Z 60) in *.
      rewrite <- inject_Z_plus in *. now apply elapsed_le_whole.
Qed.

Lemma feeAt_grace_window_witness :
  feeAt 900000 (Session.mk "u" (mkVehicle "M" MOTORCYCLE) "s" 0 None None) == 1 # 2
  /\ feeAt 900001 (Session.mk "u" (mkVehicle "M" MOTORCYCLE) "s" 0 None None)
     == (1 # 2) + 1.
Proof.
  split.
  - apply (proj1 (feeAt_grace_window 900000
             (Session.mk "u" (mkVehicle "M" MOTORCYCLE) "s" 0 None None))).
    vm_compute. discriminate.
  - apply (proj2 (feeAt_grace_window 900001
             (Session.mk "u" (mkVehicle "M" MOTORCYCLE) "s" 0 None None)));
      vm_compute; [reflexivity | discriminate].
Defined.

Local Close Scope Q_scope.

Lemma list_find_insert_same {A : Type} (P : A -> Prop) `{forall x, Decision (P x)}
    (l : list A) (i : nat) (y : A) :
  ~ P y -> (forall z, l !! i = Some z -> ~ P z) ->
  list_find P (<[i := y]> l) = list_find P l.
Proof.
  revert i. induction l as [| a l IH]; intros i Hy Hz; [reflexivity |].
  destruct i as [| i]; cbn.
  - rewrite decide_False by exact Hy.
    rewrite decide_False by (apply (Hz a); reflexivity). reflexivity.
  - destruct (decide (P a)); [reflexivity |].
    rewrite IH; [reflexivity | exact Hy |].
    intros z Hl. apply (Hz z). exact Hl.
Qed.

Lemma spotWithId_None (w : World) (id : string) :
  spotWithId w id = None ->
  list_find (fun s => Spot.id (spotObj w s) = id) (spots w) = None.
Proof.
  unfold spotWithId, Array_find. now destruct (list_find _ _).
Qed.

(** X5: [update(spot)] never fails and touches only the registry array:
    spot objects, session objects and the ledger are unchanged.  When some
    entry has the id of [spot], the array afterwards is the old one with
    the first such entry, at index [i], and only it, replaced by [spot],
    and [findById] of that id returns [spot]; when no entry has the id
    the store is unchanged.  The lookup of every other id is unchanged. *)
Theorem update_replaces_first_match (spot : ref) (w : World) :
  let id := Spot.id (spotObj w spot) in
  let w' := snd (update spot w) in
  fst (update spot w) = inr tt
  /\ spotObj w' = spotObj w
  /\ sessions w' = sessions w
  /\ sessionObj w' = sessionObj w
  /\ sessionNext w' = sessionNext w
  /\ length (spots w') = length (spots w)
  /\ (forall i r0,
        spots w !! i = Some r0 -> Spot.id (spotObj w r0) = id ->
        (forall j y, spots w !! j = Some y -> (j < i)%nat ->
                     Spot.id (spotObj w y) <> id) ->
        spots w' = <[i := spot]> (spots w))
  /\ (spotWithId w id = None -> update spot w = (inr tt, w))
  /\ (is_Some (spotWithId w id) -> spotWithId w' id = Some spot)
  /\ (forall id', id' <> id -> spotWithId w' id' = spotWithId w id').
Proof.
  intros id w'. subst w'.
  destruct (list_find (fun s => Spot.id (spotObj w s) = id) (spots w))
    as [[i r0] |] eqn:Hf.
  - rewrite (update_run _ _ _ _ Hf). cbn.
    pose proof Hf as (Hi & Hid & Hleast)%list_find_Some.
    repeat (split; [reflexivity |]).
    split; [apply length_insert |].
    split.
    { intros i' r' Hi' Hid' Hleast'.
      assert (Hf' : list_find (fun s => Spot.id (spotObj w s) = id) (spots w)
                    = Some (i', r')) by (apply list_find_Some; auto).
      rewrite Hf in Hf'. now injection Hf' as -> _. }
    repeat split.
    + unfold spotWithId, Array_find. fold id. rewrite Hf. discriminate.
    + intros _. unfold spotWithId, Array_find. cbn.
      assert (Hfind : list_find (fun s => Spot.id (spotObj w s) = id)
                        (<[i := spot]> (spots w)) = Some (i, spot)).
      { apply list_find_insert_Some. right. left.
        repeat split; eauto using lookup_lt_Some. }
      now rewrite Hfind.
    + intros id' Hne. unfold spotWithId, Array_find. cbn. f_equal.
      apply list_find_insert_same.
      * unfold id in Hne. congruence.
      * intros z Hz. rewrite Hi in Hz. injection Hz as <-. congruence.
  - assert (Hrun : update spot w = (inr tt, w)).
    { unfold update, bind, gets, findIndex. fold id. now rewrite Hf. }
    rewrite Hrun. cbn.
    repeat (split; [reflexivity |]).
    split.
    { intros i' r' Hi' Hid' _. exfalso.
      apply list_find_None in Hf.
      apply (proj1 (Forall_forall _ _) Hf r'); [| exact Hid'].
      apply list_elem_of_lookup. eauto. }
    repeat split.
    intros [r Hr]. unfold spotWithId, Array_find in Hr. fold id in Hr.
    rewrite Hf in Hr. discriminate.
Qed.

Lemma update_replaces_first_match_witness :
  spots (initialWorld repeatedIdInventory) = [0%nat; 1%nat]
  /\ spots (snd (update 1%nat (initialWorld repeatedIdInventory)))
     = [1%nat; 1%nat]
  /\ spotWithId (snd (update 1%nat (initialWorld demoInventory))) "s2" = Some 1%nat
  /\ update 0%nat twinLedger = (inr tt, twinLedger).
Proof.
  split; [reflexivity |]. split; [| split].
  - destruct (update_replaces_first_match 1%nat (initialWorld repeatedIdInventory))
      as (_ & _ & _ & _ & _ & _ & Hfirst & _).
    apply (Hfirst 0%nat 0%nat); [reflexivity | reflexivity |].
    intros j y _ Hj. inversion Hj.
  - destruct (update_replaces_first_match 1%nat (initialWorld demoInventory))
      as (_ & _ & _ & _ & _ & _ & _ & _ & Hknown & _).
    apply Hknown. exists 1%nat. reflexivity.
  - destruct (update_replaces_first_match 0%nat twinLedger)
      as (_ & _ & _ & _ & _ & _ & _ & Hunknown & _).
    apply Hunknown. reflexivity.
Defined.

(** X6: [add(spot)] appends and never shadows: an id that was found
    before is still found at the same spot, and an id that was not found is
    found at [spot] exactly when [spot] has it. *)
Theorem add_keeps_lookups (spot : ref) (w : World) (id : string) :
  let w' := snd (add spot w) in
  fst (add spot w) = inr tt
  /\ spots w' = spots w ++ [spot]
  /\ spotWithId w' id
     = match spotWithId w id with
       | Some r => Some r
       | None => if decide (Spot.id (spotObj w spot) = id) then Some spot else None
       end.
Proof.
  cbn. repeat split. unfold spotWithId, Array_find. cbn.
  destruct (list_find (fun s => Spot.id (spotObj w s) = id) (spots w))
    as [[i r] |] eqn:Hf.
  - now rewrite (list_find_app_l _ _ _ _ _ Hf).
  - rewrite (list_find_app_r _ _ _ Hf). cbn.
    now destruct (decide (Spot.id (spotObj w spot) = id)).
Qed.

(** X7: [release(spotId)] never fails.  For an unknown id the store is
    unchanged; otherwise the status of the first spot with that id is
    [AVAILABLE] afterwards and its id, size, code and rank are as before,
    and no other spot object, the registry array and the ledger do not
    change. *)
Theorem release_frees_first_match (spotId : string) (w : World) :
  let w' := snd (release spotId w) in
  fst (release spotId w) = inr tt
  /\ spots w' = spots w
  /\ sessions w' = sessions w /\ sessionObj w' = sessionObj w
  /\ (spotWithId w spotId = None -> w' = w)
  /\ (forall sp, spotWithId w spotId = Some sp ->
        Spot.status (spotObj w' sp) = AVAILABLE
        /\ sameSpot (spotObj w' sp) (spotObj w sp)
        /\ forall r, r <> sp -> spotObj w' r = spotObj w r).
Proof.
  intros w'. subst w'. rewrite release_run. cbn [fst snd].
  destruct (spotWithId w spotId) as [sp |]; cbn;
    (split; [reflexivity |]); (split; [reflexivity |]);
    (split; [reflexivity |]); (split; [reflexivity |]); split;
    try discriminate; try reflexivity.
  intros sp' [= <-]. split; [now rewrite fn_lookup_insert |].
  split; [rewrite fn_lookup_insert; repeat split |].
  intros r Hr. now rewrite fn_lookup_insert_ne by congruence.
Qed.

Lemma release_frees_first_match_witness :
  Spot.status (spotObj (snd (release "s1"
      (snd (allocate 0 "u1" (mkVehicle "A" CAR) (initialWorld demoInventory))))) 0%nat)
  = AVAILABLE.
Proof.
  set (w := snd (allocate 0 "u1" (mkVehicle "A" CAR) (initialWorld demoInventory))).
  destruct (release_frees_first_match "s1" w) as (_ & _ & _ & _ & _ & H).
  destruct (H 0%nat) as [Hstatus _]; [reflexivity | exact Hstatus].
Defined.

Lemma allocate_cases (now : Z) (uuid : string) (vehicle : VehicleDto) (w : World) :
  (allocate now uuid vehicle w = (inl "NoSpace", w)
   /\ forall s, s ∈ spots w -> ~ availableOfSize w (type vehicle) s)
  \/ exists chosen i r0,
       list_find (fun s => Spot.id (spotObj w s) = Spot.id (spotObj w chosen))
                 (spots w) = Some (i, r0)
       /\ nearestCandidate w (type vehicle) chosen
       /\ allocate now uuid vehicle w
          = (inr chosen, allocatedWorld now uuid vehicle chosen i w).
Proof.
  destruct (Array_sort (byDistanceRank w)
              (filter (availableOfSize w (type vehicle)) (spots w)))
    as [| chosen rest] eqn:Hs.
  - left. apply (Array_sort_nil (rank w)) in Hs.
    assert (Hnone : forall s, s ∈ spots w -> ~ availableOfSize w (type vehicle) s).
    { intros s Hin Hav.
      assert (Hs' : s ∈ filter (availableOfSize w (type vehicle)) (spots w))
        by (apply list_elem_of_filter; tauto).
      rewrite Hs in Hs'. inversion Hs'. }
    split; [| exact Hnone]. unfold allocate, bind, listAvailableBySize, gets.
    cbv beta iota. rewrite Hs. reflexivity.
  - right. destruct (allocate_run now uuid vehicle _ _ _ Hs) as (i & r0 & Hf & Hrun).
    exists chosen, i, r0. split; [exact Hf |]. split; [| exact Hrun].
    apply (sorted_head_nearest _ _ _ _ Hs).
Qed.

Lemma allocate_success_inv (now : Z) (uuid : string) (vehicle : VehicleDto)
    (w : World) (chosen : ref) :
  fst (allocate now uuid vehicle w) = inr chosen ->
  exists i r0,
    list_find (fun s => Spot.id (spotObj w s) = Spot.id (spotObj w chosen))
              (spots w) = Some (i, r0)
    /\ nearestCandidate w (type vehicle) chosen
    /\ allocate now uuid vehicle w
       = (inr chosen, allocatedWorld now uuid vehicle chosen i w).
Proof.
  intros Hok.
  destruct (allocate_cases now uuid vehicle w)
    as [[Hrun _] | (c & i & r0 & Hf & Hnear & Hrun)]; rewrite Hrun in Hok.
  - discriminate.
  - cbn in Hok. injection Hok as ->. eauto.
Qed.

(** X8: a successful [allocate] appends exactly one session to the
    ledger: a new object that is open, carries the generated id, the
    vehicle, the id of the chosen spot and the current instant as entry
    time; the sessions already in the ledger are untouched. *)
Theorem allocate_opens_session (now : Z) (uuid : string) (vehicle : VehicleDto)
    (w : World) (chosen : ref) :
  fst (allocate now uuid vehicle w) = inr chosen ->
  ledgerWellFormed w ->
  let w' := snd (allocate now uuid vehicle w) in
  exists s,
    sessions w' = sessions w ++ [s]
    /\ (s ∉ sessions w)
    /\ sessionObj w' s
       = Session.mk uuid vehicle (Spot.id (spotObj w chosen)) now None None
    /\ (forall r, r ∈ sessions w -> sessionObj w' r = sessionObj w r)
    /\ ledgerWellFormed w'.
Proof.
  intros Hok Hwf w'.
  destruct (allocate_success_inv _ _ _ _ _ Hok) as (i & r0 & _ & _ & Hrun).
  subst w'. rewrite Hrun. cbn [snd allocatedWorld sessions sessionObj].
  exists (sessionNext w).
  assert (Hfresh : sessionNext w ∉ sessions w).
  { intros Hin. specialize (Hwf _ Hin). lia. }
  split; [reflexivity |]. split; [exact Hfresh |].
  split; [now rewrite fn_lookup_insert |]. split.
  - intros r Hr. apply fn_lookup_insert_ne. intros E. now rewrite E in Hfresh.
  - intros s [Hs | ->%list_elem_of_singleton]%elem_of_app; cbn; [| lia].
    specialize (Hwf _ Hs). lia.
Qed.

Lemma allocate_opens_session_witness :
  exists s,
    sessions (snd (allocate 0 "u1" (mkVehicle "A" CAR) (initialWorld demoInventory)))
    = [] ++ [s].
Proof.
  destruct (allocate_opens_session 0 "u1" (mkVehicle "A" CAR)
              (initialWorld demoInventory) 0%nat) as (s & Hs & _).
  - reflexivity.
  - intros s Hs. inversion Hs.
  - exists s. exact Hs.
Defined.

(** X9: two successive successful allocations never return the same
    spot. *)
Theorem allocate_twice_distinct (t1 t2 : Z) (u1 u2 : string) (v1 v2 : VehicleDto)
    (w : World) (c1 c2 : ref) :
  fst (allocate t1 u1 v1 w) = inr c1 ->
  fst (allocate t2 u2 v2 (snd (allocate t1 u1 v1 w))) = inr c2 ->
  c1 <> c2.
Proof.
  intros H1 H2.
  destruct (allocate_success_inv _ _ _ _ _ H1) as (i & r0 & _ & _ & Hrun).
  destruct (allocate_success_inv _ _ _ _ _ H2) as (_ & _ & _ & [[Hav _] _] & _).
  rewrite Hrun in Hav. cbn [snd allocatedWorld spotObj] in Hav.
  intros <-. rewrite fn_lookup_insert in Hav. discriminate.
Qed.

Lemma allocate_twice_distinct_witness :
  let w := initialWorld demoInventory in
  let first := allocate 0 "u1" (mkVehicle "A" CAR) w in
  fst first = inr 0%nat
  /\ fst (allocate 1 "u2" (mkVehicle "B" CAR) (snd first)) = inr 1%nat
  /\ 0%nat <> 1%nat.
Proof.
  split; [reflexivity |]. split; [reflexivity |].
  apply (allocate_twice_distinct 0 1 "u1" "u2" (mkVehicle "A" CAR)
           (mkVehicle "B" CAR) (initialWorld demoInventory)); reflexivity.
Defined.

Lemma NoDup_spotIds_spots (w : World) : NoDup (spotIds w) -> NoDup (spots w).
Proof. apply NoDup_fmap_1. Qed.

Lemma allocatedWorld_spots (now : Z) (uuid : string) (vehicle : VehicleDto)
    (chosen : ref) (i : nat) (r0 : ref) (w : World) :
  NoDup (spotIds w) -> chosen ∈ spots w ->
  list_find (fun s => Spot.id (spotObj w s) = Spot.id (spotObj w chosen))
            (spots w) = Some (i, r0) ->
  spots (allocatedWorld now uuid vehicle chosen i w) = spots w.
Proof.
  intros Hnd Hin Hf. cbn. apply list_insert_id.
  rewrite <- (list_find_own_id _ _ _ _ Hnd Hin Hf).
  now apply list_find_Some in Hf as (? & _).
Qed.

Lemma nearestCandidate_in (w : World) (size : VehicleType) (c : ref) :
  nearestCandidate w size c -> c ∈ spots w.
Proof.
  intros (_ & pre & post & -> & _). apply elem_of_app. right. left.
Qed.

(** X10: in a registry with pairwise distinct ids, after a successful
    [allocate] the available spots of every size are the earlier ones
    without the chosen spot, in the same order; for the vehicle's type
    there is exactly one fewer. *)
Theorem allocate_removes_candidate (now : Z) (uuid : string)
    (vehicle : VehicleDto) (w : World) (chosen : ref) (size : VehicleType) :
  fst (allocate now uuid vehicle w) = inr chosen ->
  NoDup (spotIds w) ->
  let w' := snd (allocate now uuid vehicle w) in
  fst (listAvailableBySize size w')
  = inr (filter (fun r => r <> chosen)
                (filter (availableOfSize w size) (spots w)))
  /\ S (length (filter (availableOfSize w' (type vehicle)) (spots w')))
     = length (filter (availableOfSize w (type vehicle)) (spots w)).
Proof.
  intros Hok Hnd w'.
  destruct (allocate_success_inv _ _ _ _ _ Hok) as (i & r0 & Hf & Hnear & Hrun).
  pose proof (nearestCandidate_in _ _ _ Hnear) as Hin.
  assert (Hspots : spots w' = spots w).
  { subst w'. rewrite Hrun. cbn [snd]. eapply allocatedWorld_spots; eauto. }
  assert (Hav : forall sz r, availableOfSize w' sz r
                             <-> r <> chosen /\ availableOfSize w sz r).
  { intros sz r. subst w'. rewrite Hrun. unfold availableOfSize.
    cbn [snd allocatedWorld spotObj].
    destruct (decide (r = chosen)) as [-> | Hne].
    - rewrite fn_lookup_insert. cbn. split; [intros [? _]; discriminate |].
      intros [? _]. congruence.
    - rewrite fn_lookup_insert_ne by congruence. tauto. }
  split.
  - unfold listAvailableBySize, gets. cbn [fst]. f_equal. rewrite Hspots.
    rewrite list_filter_filter. apply list_filter_iff. intros r. apply Hav.
  - rewrite Hspots. symmetry.
    apply (filter_drop_one _ _ _ chosen (NoDup_spotIds_spots _ Hnd) Hin).
    + apply Hnear.
    + intros Hc. apply Hav in Hc. tauto.
    + intros r Hr. rewrite Hav. tauto.
Qed.

Lemma allocate_removes_candidate_witness :
  fst (listAvailableBySize CAR
         (snd (allocate 0 "u1" (mkVehicle "A" CAR) (initialWorld demoInventory))))
  = inr (filter (fun r => r <> 0%nat)
           (filter (availableOfSize (initialWorld demoInventory) CAR)
                   (spots (initialWorld demoInventory)))).
Proof.
  apply (allocate_removes_candidate 0 "u1" (mkVehicle "A" CAR)
           (initialWorld demoInventory) 0%nat CAR).
  - reflexivity.
  - vm_compute. repeat constructor; intros H; inversion H; subst;
      match goal with H : _ ∈ _ |- _ => inversion H end.
Defined.

Lemma setStatus_back (s : Spot.t) :
  Spot.status s = AVAILABLE ->
  Spot.setStatus AVAILABLE (Spot.setStatus OCCUPIED s) = s.
Proof. destruct s; cbn. now intros ->. Qed.

(** X11: [allocate] followed by [release] of the chosen spot's id restores
    every spot object; with pairwise distinct ids the registry array is
    restored as well. *)
Theorem allocate_release_roundtrip (now : Z) (uuid : string)
    (vehicle : VehicleDto) (w : World) (chosen : ref) :
  fst (allocate now uuid vehicle w) = inr chosen ->
  let w1 := snd (allocate now uuid vehicle w) in
  let w2 := snd (release (Spot.id (spotObj w chosen)) w1) in
  (forall r, spotObj w2 r = spotObj w r)
  /\ (NoDup (spotIds w) -> spots w2 = spots w).
Proof.
  intros Hok w1 w2.
  destruct (allocate_success_inv _ _ _ _ _ Hok) as (i & r0 & Hf & Hnear & Hrun).
  assert (Hw1 : w1 = allocatedWorld now uuid vehicle chosen i w)
    by (subst w1; now rewrite Hrun).
  assert (Hw2 : w2 = setSpotObj
                  (<[chosen := Spot.setStatus AVAILABLE (spotObj w1 chosen)]>
                     (spotObj w1)) w1).
  { subst w2. rewrite release_run. cbn [snd].
    rewrite Hw1 at 1. now rewrite (allocatedWorld_spotWithId _ _ _ _ _ _ _ Hf). }
  split.
  - intros r. rewrite Hw2, Hw1. cbn [setSpotObj allocatedWorld spotObj].
    destruct (decide (r = chosen)) as [-> | Hne].
    + rewrite !fn_lookup_insert. apply setStatus_back. apply Hnear.
    + now rewrite !fn_lookup_insert_ne by congruence.
  - intros Hnd. rewrite Hw2. cbn [setSpotObj spots]. rewrite Hw1.
    eapply allocatedWorld_spots; eauto using nearestCandidate_in.
Qed.

Lemma allocate_release_roundtrip_witness :
  spotObj (snd (release "s1"
             (snd (allocate 0 "u1" (mkVehicle "A" CAR)
                     (initialWorld demoInventory))))) 0%nat
  = spotObj (initialWorld demoInventory) 0%nat.
Proof.
  apply (proj1 (allocate_release_roundtrip 0 "u1" (mkVehicle "A" CAR)
                  (initialWorld demoInventory) 0%nat eq_refl) 0%nat).
Defined.

(** X12: [checkIn] either throws [NoSpace], exactly when no spot of the
    vehicle's type is available, and then leaves the store as it was, or
    returns the id and the code of the nearest candidate; it throws
    nothing else. *)
Theorem checkIn_all_or_nothing (now : Z) (uuid : string) (vehicle : VehicleDto)
    (w : World) :
  (checkIn now uuid vehicle w = (inl "NoSpace", w)
   /\ forall s, s ∈ spots w -> ~ availableOfSize w (type vehicle) s)
  \/ exists chosen,
       nearestCandidate w (type vehicle) chosen
       /\ fst (checkIn now uuid vehicle w)
          = inr (Spot.id (spotObj w chosen), Spot.code (spotObj w chosen))
       /\ fst (allocate now uuid vehicle w) = inr chosen.
Proof.
  destruct (allocate_cases now uuid vehicle w)
    as [[Hrun Hnone] | (chosen & i & r0 & Hf & Hnear & Hrun)].
  - left. split; [| exact Hnone]. unfold checkIn, bind. now rewrite Hrun.
  - right. exists chosen. split; [exact Hnear |].
    unfold checkIn, bind, gets. rewrite Hrun.
    cbn [fst allocatedWorld spotObj]. now rewrite fn_lookup_insert.
Qed.

(** X13: [checkOut] of an id no session has throws [NotFound] and leaves
    the store unchanged, and this is the only way [checkOut] fails. *)
Theorem checkOut_fails_only_unknown (now : Z) (sessionId : string) (w : World) :
  (sessionWithId w sessionId = None ->
   checkOut now sessionId w = (inl "NotFound", w))
  /\ (forall e, fst (checkOut now sessionId w) = inl e ->
        e = "NotFound" /\ sessionWithId w sessionId = None
        /\ snd (checkOut now sessionId w) = w).
Proof.
  split; [apply checkOut_not_found |].
  intros e He. destruct (sessionWithId w sessionId) as [r |] eqn:Hf.
  - destruct (checkOut_run now _ _ _ Hf) as (w' & Hrun & _).
    rewrite Hrun in He. discriminate.
  - rewrite (checkOut_not_found _ _ _ Hf) in *. cbn in *.
    injection He as <-. repeat split.
Qed.

Lemma checkOut_fails_only_unknown_witness :
  checkOut 5 "nobody" (initialWorld demoInventory)
  = (inl "NotFound", initialWorld demoInventory).
Proof.
  apply (proj1 (checkOut_fails_only_unknown 5 "nobody" (initialWorld demoInventory))).
  reflexivity.
Defined.

(** X14: [checkOut] of an id some session has returns the fee of the
    first such session from its entry time to [now] at the rate of its
    vehicle type and records [now] and that amount on the session; the
    status of the first spot with the session's spot id is [AVAILABLE]
    afterwards, its id, size, code and rank being as before; every other
    session and spot object and both arrays are unchanged. *)
Theorem checkOut_effects (now : Z) (sessionId : string) (w : World) (r : ref) :
  sessionWithId w sessionId = Some r ->
  let s := sessionObj w r in
  let rate := FeeCalculatorFactory_for (type (Session.vehicle s)) in
  let amount := spec_amount (Session.entryTime s) now rate in
  let w' := snd (checkOut now sessionId w) in
  fst (checkOut now sessionId w) = inr amount
  /\ sessionObj w' r
     = Session.mk (Session.id s) (Session.vehicle s) (Session.spotId s)
                  (Session.entryTime s) (Some now) (Some amount)
  /\ (forall r', r' <> r -> sessionObj w' r' = sessionObj w r')
  /\ sessions w' = sessions w
  /\ spots w' = spots w
  /\ (spotWithId w (Session.spotId s) = None -> spotObj w' = spotObj w)
  /\ (forall sp, spotWithId w (Session.spotId s) = Some sp ->
        Spot.status (spotObj w' sp) = AVAILABLE
        /\ sameSpot (spotObj w' sp) (spotObj w sp)
        /\ forall q, q <> sp -> spotObj w' q = spotObj w q).
Proof.
  intros Hf s rate amount w'.
  destruct (checkOut_run now _ _ _ Hf)
    as (w1 & Hrun & Hobj & Hothers & Hsess & _ & Hspots & Hsobj).
  assert (Hfee : feeAt now s = amount).
  { unfold feeAt. now rewrite calculate_closed. }
  subst w'. fold s in Hrun, Hobj, Hsobj. rewrite Hrun. cbn [fst snd].
  rewrite Hfee in *.
  split; [reflexivity |]. split; [exact Hobj |]. split; [exact Hothers |].
  split; [exact Hsess |]. split; [exact Hspots |]. split.
  - intros Hn. now rewrite Hn in Hsobj.
  - intros sp Hsp. rewrite Hsp in Hsobj. rewrite Hsobj. split; [| split].
    + now rewrite fn_lookup_insert.
    + rewrite fn_lookup_insert. repeat split.
    + intros q Hq. now rewrite fn_lookup_insert_ne by congruence.
Qed.

Lemma checkOut_effects_witness :
  let w1 := snd (checkIn 0 "u1" (mkVehicle "A" CAR) (initialWorld demoInventory)) in
  Spot.status (spotObj w1 0%nat) = OCCUPIED
  /\ fst (checkOut 1800000 "u1" w1)
     = inr (spec_amount 0 1800000 (FeeCalculatorFactory_for CAR))
  /\ Spot.status (spotObj (snd (checkOut 1800000 "u1" w1)) 0%nat) = AVAILABLE.
Proof.
  intros w1.
  destruct (checkOut_effects 1800000 "u1" w1 0%nat eq_refl)
    as (Hfee & _ & _ & _ & _ & _ & Hspot).
  split; [reflexivity |]. split; [exact Hfee |].
  apply (Hspot 0%nat). reflexivity.
Defined.

Lemma step_cases (op : Op) (w : World) :
  step op w = w
  \/ (exists now uuid vehicle chosen i r0,
        list_find (fun s => Spot.id (spotObj w s) = Spot.id (spotObj w chosen))
                  (spots w) = Some (i, r0)
        /\ nearestCandidate w (type vehicle) chosen
        /\ step op w = allocatedWorld now uuid vehicle chosen i w)
  \/ (exists now r a,
        r ∈ sessions w
        /\ sessionObj (step op w) r
           = Session.setAmount a (Session.setExitTime now (sessionObj w r))
        /\ (forall r', r' <> r -> sessionObj (step op w) r' = sessionObj w r')
        /\ sessions (step op w) = sessions w
        /\ sessionNext (step op w) = sessionNext w
        /\ spots (step op w) = spots w
        /\ (spotObj (step op w) = spotObj w
            \/ exists sp, sp ∈ spots w
                 /\ spotObj (step op w)
                    = <[sp := Spot.setStatus AVAILABLE (spotObj w sp)]> (spotObj w))).
Proof.
  destruct op as [now uuid vehicle | now sessionId]; cbn [step].
  - destruct (allocate_cases now uuid vehicle w)
      as [[Hrun _] | (chosen & i & r0 & Hf & Hnear & Hrun)];
      unfold checkIn, bind, gets; rewrite Hrun.
    + now left.
    + right. left. exists now, uuid, vehicle, chosen, i, r0. eauto.
  - destruct (sessionWithId w sessionId) as [r |] eqn:Hf.
    + right. right.
      destruct (checkOut_run now _ _ _ Hf)
        as (w' & Hrun & Hobj & Hothers & Hsess & Hnext & Hspots & Hsobj).
      rewrite Hrun. cbn [snd].
      exists now, r, (feeAt now (sessionObj w r)).
      destruct (sessionWithId_Some _ _ _ Hf) as [Hin _].
      repeat (split; [assumption |]).
      destruct (spotWithId w _) as [sp |] eqn:E; [right | now left].
      exists sp. split; [| exact Hsobj]. now apply spotWithId_id in E.
    + left. now rewrite checkOut_not_found.
Qed.

Lemma sameEntry_refl (a : Session.t) : sameEntry a a.
Proof. repeat split. Qed.

Lemma sameEntry_trans (a b c : Session.t) :
  sameEntry a b -> sameEntry b c -> sameEntry a c.
Proof. unfold sameEntry. intuition congruence. Qed.

Lemma sameSpot_refl (a : Spot.t) : sameSpot a a.
Proof. repeat split. Qed.

Lemma sameSpot_trans (a b c : Spot.t) :
  sameSpot a b -> sameSpot b c -> sameSpot a c.
Proof. unfold sameSpot. intuition congruence. Qed.

Lemma step_ledger (op : Op) (w : World) :
  (sessionNext w <= sessionNext (step op w))%nat
  /\ sessions w `prefix_of` sessions (step op w)
  /\ (forall r, (r < sessionNext w)%nat ->
        sameEntry (sessionObj (step op w) r) (sessionObj w r))
  /\ (ledgerWellFormed w -> ledgerWellFormed (step op w)).
Proof.
  destruct (step_cases op w)
    as [-> | [(now & uuid & vehicle & chosen & i & r0 & _ & _ & ->)
            | (now & r & a & _ & Hobj & Hothers & Hsess & Hnext & _)]].
  - repeat split; auto.
  - cbn [allocatedWorld sessionNext sessions sessionObj]. split; [lia |].
    split; [now apply prefix_app_r |]. split.
    + intros r Hr. rewrite fn_lookup_insert_ne by lia. apply sameEntry_refl.
    + intros Hwf s [Hs | ->%list_elem_of_singleton]%elem_of_app; cbn; [| lia].
      specialize (Hwf _ Hs). lia.
  - rewrite Hsess, Hnext. split; [lia |]. split; [reflexivity |]. split.
    + intros r' _. destruct (decide (r' = r)) as [-> | Hne].
      * rewrite Hobj. repeat split.
      * rewrite Hothers by exact Hne. apply sameEntry_refl.
    + intros Hwf s Hs. unfold ledgerWellFormed in *. rewrite Hsess in Hs.
      rewrite Hnext. now apply Hwf.
Qed.

Lemma runOps_ledger (ops : list Op) (w : World) :
  (sessionNext w <= sessionNext (runOps ops w))%nat
  /\ sessions w `prefix_of` sessions (runOps ops w)
  /\ (forall r, (r < sessionNext w)%nat ->
        sameEntry (sessionObj (runOps ops w) r) (sessionObj w r))
  /\ (ledgerWellFormed w -> ledgerWellFormed (runOps ops w)).
Proof.
  revert w. induction ops as [| op ops IH]; intros w.
  - cbn. repeat split; auto.
  - cbn [runOps foldl]. fold (runOps ops (step op w)).
    destruct (step_ledger op w) as (Hn & Hp & He & Hw).
    destruct (IH (step op w)) as (Hn' & Hp' & He' & Hw').
    split; [lia |]. split; [etrans; eassumption |]. split.
    + intros r Hr. eapply sameEntry_trans; [apply He'; lia | now apply He].
    + auto.
Qed.

(** X15: the ledger is append-only.  Over any sequence of check-ins and
    check-outs the sessions present at the start stay in place at the front
    of the ledger and keep their id, vehicle, spot id and entry time. *)
Theorem ledger_append_only (ops : list Op) (w : World) :
  ledgerWellFormed w ->
  let w' := runOps ops w in
  sessions w `prefix_of` sessions w'
  /\ (forall r, r ∈ sessions w -> sameEntry (sessionObj w' r) (sessionObj w r))
  /\ ledgerWellFormed w'.
Proof.
  intros Hwf w'. destruct (runOps_ledger ops w) as (_ & Hp & He & Hw).
  split; [exact Hp |]. split; [| now apply Hw].
  intros r Hr. apply He. now apply Hwf.
Qed.

Lemma step_spots (op : Op) (w : World) :
  (forall r, sameSpot (spotObj (step op w) r) (spotObj w r)
             /\ (Spot.status (spotObj (step op w) r) = Spot.status (spotObj w r)
                 \/ Spot.status (spotObj (step op w) r) = AVAILABLE
                 \/ Spot.status (spotObj (step op w) r) = OCCUPIED))
  /\ length (spots (step op w)) = length (spots w)
  /\ (NoDup (spotIds w) -> spots (step op w) = spots w).
Proof.
  destruct (step_cases op w)
    as [-> | [(now & uuid & vehicle & chosen & i & r0 & Hf & Hnear & ->)
            | (now & r & a & _ & _ & _ & _ & _ & Hspots & Hsobj)]].
  - repeat split; auto.
  - split; [| split].
    + intros r. cbn [allocatedWorld spotObj].
      destruct (decide (r = chosen)) as [-> | Hne].
      * rewrite fn_lookup_insert. split; [repeat split | auto].
      * rewrite fn_lookup_insert_ne by congruence. split; [apply sameSpot_refl | auto].
    + apply length_insert.
    + intros Hnd. eapply allocatedWorld_spots; eauto using nearestCandidate_in.
  - rewrite Hspots. split; [| auto].
    intros q. destruct Hsobj as [-> | (sp & _ & ->)].
    + split; [apply sameSpot_refl | auto].
    + destruct (decide (q = sp)) as [-> | Hne].
      * rewrite fn_lookup_insert. split; [repeat split | auto].
      * rewrite fn_lookup_insert_ne by congruence. split; [apply sameSpot_refl | auto].
Qed.

Lemma spotIds_same (w w' : World) :
  spots w' = spots w ->
  (forall r, sameSpot (spotObj w' r) (spotObj w r)) ->
  spotIds w' = spotIds w.
Proof.
  intros Hs Ho. unfold spotIds. rewrite Hs.
  apply list_fmap_ext. intros _ r _. apply Ho.
Qed.

(** X16: over any sequence of check-ins and check-outs a spot keeps its
    id, size, code and distance rank; its status is either unchanged or
    one of [AVAILABLE] and [OCCUPIED] (never newly [RESERVED]); the
    registry keeps its length, and with pairwise distinct ids the registry
    array itself is unchanged. *)
Theorem spots_change_status_only (ops : list Op) (w : World) :
  let w' := runOps ops w in
  (forall r, sameSpot (spotObj w' r) (spotObj w r)
             /\ (Spot.status (spotObj w' r) = Spot.status (spotObj w r)
                 \/ Spot.status (spotObj w' r) = AVAILABLE
                 \/ Spot.status (spotObj w' r) = OCCUPIED))
  /\ length (spots w') = length (spots w)
  /\ (NoDup (spotIds w) -> spots w' = spots w).
Proof.
  revert w. induction ops as [| op ops IH]; intros w.
  - cbn. repeat split; auto.
  - cbn [runOps foldl]. fold (runOps ops (step op w)). cbv zeta.
    destruct (step_spots op w) as (Ho & Hl & Hs).
    destruct (IH (step op w)) as (Ho' & Hl' & Hs').
    split; [| split].
    + intros r. destruct (Ho r) as [Hsame Hst], (Ho' r) as [Hsame' Hst'].
      split; [eapply sameSpot_trans; eassumption |].
      destruct Hst' as [-> | [-> | ->]]; auto.
    + lia.
    + intros Hnd. specialize (Hs Hnd). rewrite Hs'; [exact Hs |].
      rewrite (spotIds_same w (step op w) Hs); [exact Hnd |].
      intros r. apply Ho.
Qed.

Lemma spots_change_status_only_witness :
  spots (runOps doubleCheckOut (initialWorld oneSpot)) = spots (initialWorld oneSpot).
Proof.
  apply (spots_change_status_only doubleCheckOut (initialWorld oneSpot)).
  vm_compute. repeat constructor. intros H. inversion H.
Defined.

Lemma ledger_append_only_witness :
  let w := snd (checkIn 0 "u1" (mkVehicle "A" CAR) (initialWorld demoInventory)) in
  let w' := runOps [ CheckIn 60000 "u2" (mkVehicle "B" CAR);
                     CheckOut 1800000 "u1";
                     CheckOut 3600000 "u2" ] w in
  sessions w = [0%nat]
  /\ sessions w' = [0%nat; 1%nat]
  /\ sessions w `prefix_of` sessions w'
  /\ sameEntry (sessionObj w' 0%nat) (sessionObj w 0%nat).
Proof.
  intros w w'.
  destruct (ledger_append_only [ CheckIn 60000 "u2" (mkVehicle "B" CAR);
                                 CheckOut 1800000 "u1";
                                 CheckOut 3600000 "u2" ] w)
    as (Hprefix & Hentry & _).
  - intros s Hs. change (sessions w) with [0%nat] in Hs.
    apply list_elem_of_singleton in Hs as ->.
    change (sessionNext w) with 1%nat. lia.
  - split; [reflexivity |]. split; [reflexivity |].
    split; [exact Hprefix |]. apply Hentry. left.
Defined.

(** X17: when no active session has the vehicle's plate, a successful
    [checkIn] with a fresh id makes [findActiveByPlate] return the new
    session, and the [checkOut] of that session makes it return nothing
    again. *)
Theorem findActiveByPlate_roundtrip (tIn tOut : Z) (uuid : string)
    (vehicle : VehicleDto) (w : World) (res : string * string) :
  fst (findActiveByPlate (plate vehicle) w) = inr None ->
  fst (checkIn tIn uuid vehicle w) = inr res ->
  (forall r, r ∈ sessions w -> Session.id (sessionObj w r) <> uuid) ->
  let w1 := snd (checkIn tIn uuid vehicle w) in
  let w2 := snd (checkOut tOut uuid w1) in
  exists s,
    sessionWithId w1 uuid = Some s
    /\ fst (findActiveByPlate (plate vehicle) w1) = inr (Some s)
    /\ fst (findActiveByPlate (plate vehicle) w2) = inr None.
Proof.
  intros Hnone Hok Hfresh w1 w2.
  unfold findActiveByPlate, gets in *. cbn [fst] in *.
  injection Hnone as Hnone.
  assert (Hold : forall x, x ∈ sessions w ->
            ~ (plate (Session.vehicle (sessionObj w x)) = plate vehicle
               /\ Session.exitTime (sessionObj w x) = None)).
  { unfold Array_find in Hnone.
    destruct (list_find _ (sessions w)) as [[j y] |] eqn:E; [discriminate |].
    apply list_find_None in E. intros x Hx. exact (proj1 (Forall_forall _ _) E x Hx). }
  destruct (checkIn_success_inv _ _ _ _ _ Hok)
    as (chosen & i & r0 & Hf & _ & _ & Hin).
  assert (Hw1 : w1 = allocatedWorld tIn uuid vehicle chosen i w)
    by (subst w1; now rewrite Hin).
  pose proof (allocatedWorld_sessionWithId tIn uuid vehicle chosen i w Hfresh)
    as Hsess. rewrite <- Hw1 in Hsess.
  exists (sessionNext w). split; [exact Hsess |]. split.
  - f_equal. rewrite Hw1. cbn [allocatedWorld sessions sessionObj].
    apply Array_find_last.
    + now rewrite fn_lookup_insert.
    + intros x Hx HP. destruct (decide (x = sessionNext w)) as [-> | Hne];
        [reflexivity |].
      rewrite fn_lookup_insert_ne in HP by congruence.
      now destruct (Hold x Hx).
  - f_equal.
    destruct (checkOut_run tOut uuid w1 _ Hsess)
      as (w' & Hrun & Hobj & Hothers & Hs & _).
    assert (Hw2 : w2 = w') by (subst w2; now rewrite Hrun).
    rewrite Hw2, Hs. unfold Array_find.
    destruct (list_find _ (sessions w1)) as [[j x] |] eqn:E; [exfalso | reflexivity].
    apply list_find_Some in E as (Hx%list_elem_of_lookup_2 & HP & _).
    revert HP. destruct (decide (x = sessionNext w)) as [-> | Hne].
    + rewrite Hobj. cbn. intros [_ ?]. discriminate.
    + rewrite Hothers by exact Hne.
      rewrite Hw1 in Hx |- *. cbn [allocatedWorld sessions sessionObj] in Hx |- *.
      rewrite fn_lookup_insert_ne by congruence.
      apply elem_of_app in Hx as [Hx | Hx%list_elem_of_singleton]; [| contradiction].
      now apply Hold.
Qed.

Lemma findActiveByPlate_roundtrip_witness :
  exists s,
    fst (findActiveByPlate "A"
           (snd (checkIn 0 "u1" (mkVehicle "A" CAR) (initialWorld demoInventory))))
    = inr (Some s).
Proof.
  destruct (findActiveByPlate_roundtrip 0 100 "u1" (mkVehicle "A" CAR)
              (initialWorld demoInventory) ("s1", "F1-A1"))
    as (s & _ & Hs & _).
  - reflexivity.
  - reflexivity.
  - intros r Hr. inversion Hr.
  - exists s. exact Hs.
Defined.

(** A disciplined run on one spot keeps the occupancy invariant. *)
Lemma spotInvariant_disciplined_witness :
  spotInvariant
    (runOps [ CheckIn 0 "u1" (mkVehicle "A" CAR);
              CheckOut 1800000 "u1";
              CheckIn 3600000 "u2" (mkVehicle "B" CAR) ]
            (initialWorld oneSpot)).
Proof.
  apply spotInvariant_disciplined.
  - reflexivity.
  - vm_compute. repeat constructor. intros H. inversion H.
  - intros r Hr. apply list_elem_of_singleton in Hr as ->. reflexivity.
  - exact singleCheckOut_disciplined.
Defined.
